(** * Index tuning subsystem of hyrise: evaluator, plan walker and selector

    Shallow embedding of
    - [IndexSelector::select_indices]            (src/lib/tuning/system_statistics.cpp),
    - [IndexEvaluator], [IndexChoice]            (src/lib/optimizer/abstract_syntax_tree/aggregate_node.cpp),
    - [AggregateNode]                            (the same file, first part),
    - [BaseIndexEvaluator] (LQP/PQP walker)      (src/lib/tuning/index/base_index_evaluator.cpp),
    - [BaseIndexEvaluator] (older operator walker) (src/lib/tuning/base_index_evaluator.cpp).

    Numbers.  The C++ [float] fields ([desirablility], [saved_work],
    [memory_cost], [memory_budget]) are modelled by exact rationals [Q]:
    no rounding, no NaN, no infinities.  Every concrete input used below
    is a small integer, on which binary32 arithmetic is exact as well.
    Unsigned machine integers are naturals [N] with their wrap-around
    written out where the code computes with them. *)

From stdpp Require Import gmap strings list fin_maps pretty.
From Equations Require Import Equations.
From Stdlib Require Import QArith Lqa ZArith Lia.

(** ** Comparisons of the float model, as booleans *)

Definition Qltb (x y : Q) : bool := negb (Qle_bool y x).

#[global] Instance Q_eq_dec : EqDecision Q.
Proof. solve_decision. Defined.

Definition ColumnID := N.

Inductive ColumnIndexType := Invalid | GroupKey | CompositeGroupKey | AdaptiveRadixTree.

#[global] Instance ColumnIndexType_eq_dec : EqDecision ColumnIndexType.
Proof. solve_decision. Defined.

(** ** The selector (src/lib/tuning/system_statistics.cpp, third part) *)

Module IndexSelector.

(** [index_evaluation.column]: one table column. *)
Record ColumnRef := { table_name : string; column_id : ColumnID }.

#[global] Instance ColumnRef_eq_dec : EqDecision ColumnRef.
Proof. solve_decision. Defined.

(** The struct sorted and scanned by [select_indices]; its fields are the
    ones the selector and the older evaluator read and write. *)
Record IndexEvaluation := {
  column : ColumnRef;
  desirablility : Q;
  exists_ : bool;
  type : ColumnIndexType;
  memory_cost : Q
}.

#[global] Instance IndexEvaluation_eq_dec : EqDecision IndexEvaluation.
Proof. solve_decision. Defined.

(** [IndexOperation(table_name, column_id, create)]. *)
Record IndexOperation := {
  op_table_name : string;
  op_column_id : ColumnID;
  create : bool
}.

(** An operation together with the evaluation it was planned for; the
    selector builds the [IndexOperation] from exactly these two. *)
Definition PlannedOperation : Type := IndexEvaluation * bool.

Definition operation_of (p : PlannedOperation) : IndexOperation :=
  {| op_table_name := table_name (column (fst p));
     op_column_id := column_id (column (fst p));
     create := snd p |}.

(** Modelled from the spec: [IndexEvaluation::operator<] is declared in
    index_evaluation.hpp, which is not part of the sources at hand; the
    selector's comment (sort evaluations by ascending desirability) and the
    spec (sort choices by ascending saved_work) fix it as the comparison of
    the desirability. *)
Definition evaluation_lt (a b : IndexEvaluation) : bool :=
  Qltb (desirablility a) (desirablility b).

(** [std::sort(evaluations.begin(), evaluations.end())].  The standard
    leaves the order of equivalent elements open; this model inserts each
    element in front of the first one that is not smaller, which keeps
    equivalent elements in input order (what an insertion sort does). *)
Fixpoint sort_insert (e : IndexEvaluation) (sorted : list IndexEvaluation)
  : list IndexEvaluation :=
  match sorted with
  | [] => [e]
  | x :: rest =>
      if evaluation_lt x e then x :: sort_insert e rest else e :: x :: rest
  end.

Definition sort (evaluations : list IndexEvaluation) : list IndexEvaluation :=
  foldr sort_insert [] evaluations.

(** The first loop: memory used by the indexes that exist. *)
Definition consumption_step (memory_consumption : Q) (index : IndexEvaluation) : Q :=
  if exists_ index then (memory_consumption + memory_cost index)%Q
  else memory_consumption.

Definition initial_memory_consumption (evaluations : list IndexEvaluation) : Q :=
  fold_left consumption_step evaluations 0%Q.

(** The for loop over [delete_index]: the operations it plans ... *)
Definition delete_operations (deleted : list IndexEvaluation) : list PlannedOperation :=
  map (fun e => (e, false)) (List.filter exists_ deleted).

(** ... and what it does to [memory_consumption]. *)
Definition delete_step (memory_consumption : Q) (delete_index : IndexEvaluation) : Q :=
  if exists_ delete_index then (memory_consumption - memory_cost delete_index)%Q
  else memory_consumption.

Definition delete_memory (deleted : list IndexEvaluation) (memory_consumption : Q) : Q :=
  fold_left delete_step deleted memory_consumption.

(** The main while loop and its inner scan.  The source moves iterators
    over the sorted vector; here they are positions in it: [worst_index],
    and [best_end], one past [best_index], so that [--best_index] on the
    first element ends the loop as [best_index >= worst_index] fails.
    Every turn of the loop moves one of the two towards the other; [fuel]
    bounds the turns and the distance between them is enough
    ([select_at_window]).  Both positions stay within the vector, so the
    last case of the match on the two evaluations is never taken. *)

(** [evaluations[from], ..., evaluations[to - 1]]. *)
Definition range (evaluations : list IndexEvaluation) (from to : nat)
  : list IndexEvaluation :=
  take (to - from) (drop from evaluations).

(** The scan: [distance] is how far [sacrifice_index] is from
    [best_index]. *)
Fixpoint sacrifice_at (evaluations : list IndexEvaluation) (required_memory : Q)
    (distance sacrifice_index : nat) (sacrificed_desirability obtained_memory : Q)
  : Q * Q * nat :=
  match distance with
  | O => (sacrificed_desirability, obtained_memory, sacrifice_index)
  | S distance =>
      if Qltb obtained_memory required_memory then
        match evaluations !! sacrifice_index with
        | Some e =>
            if exists_ e then
              sacrifice_at evaluations required_memory distance (S sacrifice_index)
                (sacrificed_desirability + desirablility e)%Q
                (obtained_memory + memory_cost e)%Q
            else
              sacrifice_at evaluations required_memory distance (S sacrifice_index)
                sacrificed_desirability obtained_memory
        | None => (sacrificed_desirability, obtained_memory, sacrifice_index)
        end
      else (sacrificed_desirability, obtained_memory, sacrifice_index)
  end.

Fixpoint select_at (fuel : nat) (evaluations : list IndexEvaluation) (memory_budget : Q)
    (worst_index best_end : nat) (memory_consumption : Q) : list PlannedOperation :=
  match fuel with
  | O => []
  | S fuel =>
      if (best_end <=? worst_index)%nat then []
      else
      match evaluations !! worst_index, evaluations !! (best_end - 1)%nat with
      | Some worst, Some best =>
          if Qltb (desirablility worst) 0
             && Qltb (desirablility best) (- desirablility worst) then
            if exists_ worst then
              (worst, false)
                :: select_at fuel evaluations memory_budget (S worst_index) best_end
                     (memory_consumption - memory_cost worst)%Q
            else
              select_at fuel evaluations memory_budget (S worst_index) best_end
                memory_consumption
          else if exists_ best then
            select_at fuel evaluations memory_budget worst_index (best_end - 1)
              memory_consumption
          else
            let required_memory :=
              (memory_cost best + memory_consumption - memory_budget)%Q in
            let found :=
              sacrifice_at evaluations required_memory (best_end - 1 - worst_index)
                worst_index 0%Q 0%Q in
            let sacrifice_index := snd found in
            if Qle_bool required_memory (snd (fst found))
               && Qle_bool (fst (fst found)) (desirablility best) then
              let deleted := range evaluations worst_index sacrifice_index in
              delete_operations deleted
                ++ (best, true)
                :: select_at fuel evaluations memory_budget sacrifice_index (best_end - 1)
                     (delete_memory deleted memory_consumption + memory_cost best)%Q
            else
              select_at fuel evaluations memory_budget worst_index (best_end - 1)
                memory_consumption
      | _, _ => []
      end
  end.

Definition select_plan (evaluations : list IndexEvaluation) (memory_budget : Q)
  : list PlannedOperation :=
  match evaluations with
  | [] => []
  | _ =>
      let sorted := sort evaluations in
      select_at (length sorted) sorted memory_budget 0 (length sorted)
        (initial_memory_consumption sorted)
  end.

Definition select_indices (evaluations : list IndexEvaluation) (memory_budget : Q)
  : list IndexOperation :=
  map operation_of (select_plan evaluations memory_budget).

(** *** The loop over the window

    For reasoning, the same loop on the list of the evaluations from
    [worst_index] to [best_index], both included: [++worst_index] drops
    its head, [--best_index] its last element, and the loop ends when the
    window is empty.  [select_at_window] shows that both loops plan the
    same operations. *)

(** The scan over [sacrifice_index]: [candidates] are the evaluations
    from [worst_index] up to, not including, [best_index].
    Returns the sacrificed desirability, the obtained memory and how far
    [sacrifice_index] moved. *)
Fixpoint sacrifice (required_memory : Q) (candidates : list IndexEvaluation)
    (sacrificed_desirability obtained_memory : Q) : Q * Q * nat :=
  match candidates with
  | [] => (sacrificed_desirability, obtained_memory, 0%nat)
  | sacrifice_index :: rest =>
      if Qltb obtained_memory required_memory then
        let '(s, o, k) :=
          if exists_ sacrifice_index then
            sacrifice required_memory rest
              (sacrificed_desirability + desirablility sacrifice_index)%Q
              (obtained_memory + memory_cost sacrifice_index)%Q
          else sacrifice required_memory rest sacrificed_desirability obtained_memory
        in (s, o, S k)
      else (sacrificed_desirability, obtained_memory, 0%nat)
  end.

Lemma removelast_cons_length {A} (x : A) (l : list A) :
  length (removelast (x :: l)) = length l.
Proof.
  revert x. induction l as [|y l IH]; intros x; [reflexivity|].
  change (removelast (x :: y :: l)) with (x :: removelast (y :: l)).
  cbn [length]. f_equal. apply IH.
Qed.

Equations? select_loop (memory_budget : Q) (window : list IndexEvaluation)
    (memory_consumption : Q) : list PlannedOperation by wf (length window) lt :=
  select_loop memory_budget [] memory_consumption := [];
  select_loop memory_budget (worst_index :: rest) memory_consumption :=
    let best_index := List.last (worst_index :: rest) worst_index in
    let below_best := removelast (worst_index :: rest) in
    if Qltb (desirablility worst_index) 0
       && Qltb (desirablility best_index) (- desirablility worst_index) then
      if exists_ worst_index then
        (worst_index, false)
          :: select_loop memory_budget rest (memory_consumption - memory_cost worst_index)%Q
      else select_loop memory_budget rest memory_consumption
    else if exists_ best_index then
      select_loop memory_budget below_best memory_consumption
    else
      let required_memory :=
        (memory_cost best_index + memory_consumption - memory_budget)%Q in
      let found := sacrifice required_memory below_best 0%Q 0%Q in
      if Qle_bool required_memory (snd (fst found))
         && Qle_bool (fst (fst found)) (desirablility best_index) then
        delete_operations (take (snd found) below_best)
          ++ (best_index, true)
          :: select_loop memory_budget (drop (snd found) below_best)
               (delete_memory (take (snd found) below_best) memory_consumption
                + memory_cost best_index)%Q
      else select_loop memory_budget below_best memory_consumption.
Proof.
  all: try (simpl; lia).
  all: subst below_best; rewrite ?length_drop, removelast_cons_length; simpl; lia.
Qed.

End IndexSelector.

(** ** What the operations do to the index configuration

    A drop frees the memory of the index it removes and loses its saved
    work; a create adds the memory and the saved work of the new index.
    Evaluations are told apart by their fields. *)

Module Configuration.
Import IndexSelector.
Local Open Scope Q_scope.

Definition total (f : IndexEvaluation -> Q) (l : list IndexEvaluation) : Q :=
  foldr (fun e acc => f e + acc) 0 l.

(** The evaluations of the indexes that are live before the pass. *)
Definition live_before (evaluations : list IndexEvaluation) : list IndexEvaluation :=
  List.filter exists_ evaluations.

Definition memory_in_use (live : list IndexEvaluation) : Q := total memory_cost live.
Definition saved_work (live : list IndexEvaluation) : Q := total desirablility live.

(** The same in numbers: what one operation does to the memory in use and
    to the saved work. *)
Definition apply_memory (m : Q) (p : PlannedOperation) : Q :=
  if snd p then m + memory_cost (fst p) else m - memory_cost (fst p).

Definition apply_saved_work (s : Q) (p : PlannedOperation) : Q :=
  if snd p then s + desirablility (fst p) else s - desirablility (fst p).

(** Memory in use after each operation of the plan, in order. *)
Fixpoint memory_trace (m : Q) (plan : list PlannedOperation) : list Q :=
  match plan with
  | [] => []
  | p :: rest => apply_memory m p :: memory_trace (apply_memory m p) rest
  end.

Definition memory_after (m : Q) (plan : list PlannedOperation) : Q :=
  fold_left apply_memory plan m.

Definition saved_work_after (s : Q) (plan : list PlannedOperation) : Q :=
  fold_left apply_saved_work plan s.

(** The evaluations a plan creates an index for. *)
Definition created (plan : list PlannedOperation) : list IndexEvaluation :=
  map fst (List.filter snd plan).

Definition dropped (plan : list PlannedOperation) : list IndexEvaluation :=
  map fst (List.filter (fun p => negb (snd p)) plan).

(** The evaluations of the indexes proposed, not yet existing. *)
Definition candidates (evaluations : list IndexEvaluation) : list IndexEvaluation :=
  List.filter (fun e => negb (exists_ e)) evaluations.

Definition mark_existing (e : IndexEvaluation) : IndexEvaluation :=
  {| column := column e; desirablility := desirablility e; exists_ := true;
     type := type e; memory_cost := memory_cost e |}.

(** The live indexes, as a list of their evaluations: a create adds the
    index, a drop removes one index with the evaluation it names. *)
Fixpoint remove_one (e : IndexEvaluation) (live : list IndexEvaluation)
  : list IndexEvaluation :=
  match live with
  | [] => []
  | x :: live => if decide (x = e) then live else x :: remove_one e live
  end.

Definition apply_operation (live : list IndexEvaluation) (p : PlannedOperation)
  : list IndexEvaluation :=
  if snd p then mark_existing (fst p) :: live else remove_one (fst p) live.

(** The live indexes after each operation of the plan, in order, ... *)
Fixpoint configurations (live : list IndexEvaluation) (plan : list PlannedOperation)
  : list (list IndexEvaluation) :=
  match plan with
  | [] => []
  | p :: rest => apply_operation live p :: configurations (apply_operation live p) rest
  end.

(** ... and at the end. *)
Definition live_after (live : list IndexEvaluation) (plan : list PlannedOperation)
  : list IndexEvaluation :=
  fold_left apply_operation plan live.

(** The choice vector that describes the configuration once the plan has
    been applied: an index that was dropped is gone, an index that was
    created exists, every other evaluation is as before. *)
Definition configuration_after (evaluations : list IndexEvaluation)
    (plan : list PlannedOperation) : list IndexEvaluation :=
  omap (fun e =>
          if exists_ e then
            if bool_decide (e ∈ dropped plan) then None else Some e
          else
            if bool_decide (e ∈ created plan) then Some (mark_existing e) else Some e)
       evaluations.

(** Two operations that stem from choices of identical saved work and
    memory cost come in the order of these choices in the input. *)
Definition preserves_input_order (evaluations : list IndexEvaluation)
    (plan : list PlannedOperation) : Prop :=
  forall (i j p q : nat) (a b : IndexEvaluation) (x y : bool),
    (i < j)%nat ->
    evaluations !! i = Some a -> evaluations !! j = Some b ->
    desirablility a == desirablility b -> memory_cost a == memory_cost b ->
    plan !! p = Some (a, x) -> plan !! q = Some (b, y) ->
    (p < q)%nat.

Definition same_desirability (k : Q) (e : IndexEvaluation) : bool :=
  Qeq_bool (desirablility e) k.

(** The evaluations come out by ascending desirability. *)
Definition ascending (l : list IndexEvaluation) : Prop :=
  forall i j a b, (i < j)%nat -> l !! i = Some a -> l !! j = Some b ->
    desirablility a <= desirablility b.

(** ** The loop as a derivation

    One constructor per way through the loop body.  [Selects b w m plan]:
    started on the window [w] with [memory_consumption = m], the loop
    plans [plan]. *)

Inductive Selects (memory_budget : Q)
  : list IndexEvaluation -> Q -> list PlannedOperation -> Prop :=
| Selects_done m :
    Selects memory_budget [] m []
| Selects_delete_worst worst rest m plan :
    desirablility worst < 0 ->
    desirablility (List.last (worst :: rest) worst) < - desirablility worst ->
    exists_ worst = true ->
    Selects memory_budget rest (m - memory_cost worst) plan ->
    Selects memory_budget (worst :: rest) m ((worst, false) :: plan)
| Selects_pass_worst worst rest m plan :
    desirablility worst < 0 ->
    desirablility (List.last (worst :: rest) worst) < - desirablility worst ->
    exists_ worst = false ->
    Selects memory_budget rest m plan ->
    Selects memory_budget (worst :: rest) m plan
| Selects_keep_best below best m plan :
    (0 <= desirablility (hd best below)
     \/ - desirablility (hd best below) <= desirablility best) ->
    exists_ best = true ->
    Selects memory_budget below m plan ->
    Selects memory_budget (below ++ [best]) m plan
| Selects_swap deleted between best m plan :
    (0 <= desirablility (hd best (deleted ++ between))
     \/ - desirablility (hd best (deleted ++ between)) <= desirablility best) ->
    exists_ best = false ->
    memory_cost best + m - memory_budget <= memory_in_use (live_before deleted) ->
    saved_work (live_before deleted) <= desirablility best ->
    Selects memory_budget between (delete_memory deleted m + memory_cost best) plan ->
    Selects memory_budget (deleted ++ between ++ [best]) m
      (delete_operations deleted ++ (best, true) :: plan)
| Selects_skip_best below best m plan :
    (0 <= desirablility (hd best below)
     \/ - desirablility (hd best below) <= desirablility best) ->
    exists_ best = false ->
    Selects memory_budget below m plan ->
    Selects memory_budget (below ++ [best]) m plan.

End Configuration.

(** ** Choices that exclude one another *)

Module Invalidation.
Import IndexSelector.

(** Modelled from the spec: which choices invalidate one another.  The
    source keeps [IndexChoice::_invalidates] unused and empty, and the
    evaluations the selector receives have no such field; the spec's own
    instance of an invalidation is two competing index types on the same
    column. *)
Definition invalidates (a b : IndexEvaluation) : Prop :=
  column a = column b /\ type a <> type b.

(** No create for a choice that an earlier create of the plan invalidates. *)
Definition suppresses_invalidated (plan : list PlannedOperation) : Prop :=
  forall (i j : nat) (a b : IndexEvaluation),
    plan !! i = Some (a, true) -> plan !! j = Some (b, true) ->
    invalidates a b -> ~ (i < j)%nat.

End Invalidation.

(** ** Plans, access records and the evaluator
    (src/lib/tuning/index/base_index_evaluator.cpp and the [IndexEvaluator]
    part of src/lib/optimizer/abstract_syntax_tree/aggregate_node.cpp) *)

Module IndexTuning.

Record ColumnRef := { table_name : string; column_ids : list ColumnID }.

#[global] Instance ColumnRef_eq_dec : EqDecision ColumnRef.
Proof. solve_decision. Defined.

#[global] Instance ColumnRef_countable : Countable ColumnRef.
Proof.
  apply (inj_countable' (fun c => (table_name c, column_ids c))
           (fun p => {| table_name := fst p; column_ids := snd p |})).
  intros []; reflexivity.
Defined.

Inductive PredicateCondition :=
| Equals | NotEquals | LessThan | LessThanEquals | GreaterThan
| GreaterThanEquals | Between | Like | NotLike | IsNull | IsNotNull.

(** A literal of one of the supported scalar types. *)
Inductive AllTypeVariant :=
| NullValue
| Int32 (v : Z)
| Int64 (v : Z)
| Float (v : Q)
| Double (v : Q)
| String (v : string).
Arguments Int32 v%_Z.
Arguments Int64 v%_Z.

(** What the right side of a predicate or scan can be: a literal, a
    column, or a placeholder of a prepared statement. *)
Inductive AllParameterVariant :=
| Literal (v : AllTypeVariant)
| ColumnParameter (c : ColumnID)
| ValuePlaceholder (index : nat).

Inductive Exception :=
| logic_error (what : string)   (* a failed Assert *)
| bad_get                       (* boost::get on another alternative *)
| undefined_behaviour.          (* dereferencing an empty optional *)

(** How a call ends: it returns a value, or an exception leaves it (what
    the call had gathered until then is of no use to the caller). *)
Inductive Outcome (A : Type) :=
| Returns (a : A)
| Throws (e : Exception).
Arguments Returns {A} a.
Arguments Throws {A} e.

Definition bind {A B} (o : Outcome A) (k : A -> Outcome B) : Outcome B :=
  match o with
  | Returns a => k a
  | Throws e => Throws e
  end.

Notation "'let!' x ':=' o 'in' k" := (bind o (fun x => k))
  (at level 10, x binder, o at level 200, k at level 200).

(** utils/assert.hpp is not among the sources.  [Assert] fails with a
    logic error that carries the message; [DebugAssert] is [Assert] in a
    debug build and is compiled out of a release build, so the build is a
    parameter of everything that uses it. *)
Inductive Build := Debug | Release.

Definition Assert (expr : bool) (msg : string) : Outcome unit :=
  if expr then Returns tt else Throws (logic_error msg).

Definition DebugAssert (build : Build) (expr : bool) (msg : string) : Outcome unit :=
  match build with
  | Debug => Assert expr msg
  | Release => Returns tt
  end.

(** [boost::get<AllTypeVariant>(parameter)] on a reference. *)
Definition boost_get (parameter : AllParameterVariant) : Outcome AllTypeVariant :=
  match parameter with
  | Literal v => Returns v
  | _ => Throws bad_get
  end.

(** [AccessRecord(table_name, column_id, query_frequency)] followed by the
    assignments of [condition] and [compare_value]. *)
Record AccessRecord := {
  column_ref : ColumnRef;
  condition : PredicateCondition;
  compare_value : AllTypeVariant;
  query_frequency : N
}.

Definition make_access_record (table : string) (column_id : ColumnID)
    (frequency : N) (cond : PredicateCondition) (value : AllTypeVariant) : AccessRecord :=
  {| column_ref := {| table_name := table; column_ids := [column_id] |};
     condition := cond;
     compare_value := value;
     query_frequency := frequency |}.
Arguments make_access_record table%_string (column_id frequency)%_N cond value.

(** *** Logical plans

    A plan is a graph of shared nodes.  The walkers keep no set of
    visited nodes and go through a shared node once for every edge that
    leads to it, which is the traversal of the plan unfolded into a tree;
    plans are therefore trees here. *)

Inductive LQPNodeType :=
| AggregateType | DeleteType | JoinType | LimitType | PredicateType
| ProjectionType | SortType | StoredTableType | ValidateType.

(** The node a column reference points to, as far as the walker looks at
    it: its type and, for a stored table, the table's name. *)
Record OriginalNode := {
  original_type : LQPNodeType;
  original_table_name : string
}.

(** [LQPColumnReference]: [original_node()] may be null;
    [found_output_column_id] is the answer of
    [original_node->find_output_column_id(lqp_ref)], a method of the
    logical plan that is not among the sources. *)
Record LQPColumnReference := {
  original_node : option OriginalNode;
  found_output_column_id : option ColumnID
}.

Inductive LQPPayload :=
| PredicateNode (column_reference : LQPColumnReference)
    (predicate_condition : PredicateCondition) (value : AllParameterVariant)
| StoredTableNode (table : string)
| OtherNode (t : LQPNodeType).

#[warnings="-register-all"] Inductive AbstractLQPNode :=
| LQPNode (payload : LQPPayload) (left_input right_input : option AbstractLQPNode).

Definition lqp_inputs (node : AbstractLQPNode) : list AbstractLQPNode :=
  match node with
  | LQPNode _ l r => option_list l ++ option_list r
  end.

Fixpoint lqp_size (node : AbstractLQPNode) : nat :=
  match node with
  | LQPNode _ l r =>
      S (match l with Some n => lqp_size n | None => 0 end
         + match r with Some n => lqp_size n | None => 0 end)
  end.

Definition is_stored_table (t : LQPNodeType) : bool :=
  match t with StoredTableType => true | _ => false end.

(** The body of [case LQPNodeType::Predicate]. *)
Definition inspect_predicate (build : Build) (lqp_ref : LQPColumnReference)
    (cond : PredicateCondition) (value : AllParameterVariant)
    (query_frequency : N) (records : list AccessRecord) : Outcome (list AccessRecord) :=
  match original_node lqp_ref with
  | None => Returns records
  | Some original =>
      let original_column_id := found_output_column_id lqp_ref in
      if is_stored_table (original_type original) then
        let! _ := DebugAssert build (bool_decide (is_Some original_column_id))
                    "Could not find column ID for LQPColumnReference" in
        match original_column_id with
        | None => Throws undefined_behaviour
        | Some column_id =>
            let! compare := boost_get value in
            Returns (records ++ [make_access_record (original_table_name original)
                                   column_id query_frequency cond compare])
        end
      else Returns records
  end.

(** The switch on [lqp_node->type()]. *)
Definition inspect_lqp_node (build : Build) (node : AbstractLQPNode)
    (query_frequency : N) (records : list AccessRecord) : Outcome (list AccessRecord) :=
  match node with
  | LQPNode (PredicateNode lqp_ref cond value) _ _ =>
      inspect_predicate build lqp_ref cond value query_frequency records
  | _ => Returns records
  end.

Definition lqp_queue_size (queue : list AbstractLQPNode) : nat :=
  list_sum (map lqp_size queue).

Lemma lqp_queue_size_app (q1 q2 : list AbstractLQPNode) :
  lqp_queue_size (q1 ++ q2) = (lqp_queue_size q1 + lqp_queue_size q2)%nat.
Proof. unfold lqp_queue_size. rewrite map_app. apply list_sum_app. Qed.

Lemma lqp_inputs_size (node : AbstractLQPNode) :
  lqp_size node = S (lqp_queue_size (lqp_inputs node)).
Proof.
  destruct node as [p [l|] [r|]]; unfold lqp_queue_size; simpl; lia.
Qed.

(** The while loop of [_inspect_lqp_operator] over its work list. *)
Equations? lqp_loop (build : Build) (query_frequency : N)
    (queue : list AbstractLQPNode) (records : list AccessRecord)
    : Outcome (list AccessRecord) by wf (lqp_queue_size queue) lt :=
  lqp_loop build query_frequency [] records := Returns records;
  lqp_loop build query_frequency (lqp_node :: queue) records :=
    match inspect_lqp_node build lqp_node query_frequency records with
    | Returns records' =>
        lqp_loop build query_frequency (queue ++ lqp_inputs lqp_node) records'
    | Throws e => Throws e
    end.
Proof.
  rewrite lqp_queue_size_app. unfold lqp_queue_size at 3. simpl.
  rewrite lqp_inputs_size. fold (lqp_queue_size queue). lia.
Qed.

Definition _inspect_lqp_operator (build : Build) (op : AbstractLQPNode)
    (query_frequency : N) (records : list AccessRecord) : Outcome (list AccessRecord) :=
  lqp_loop build query_frequency [op] records.

(** *** Physical plans *)

Inductive OperatorPayload :=
| GetTable (table : string)
| Validate
| TableScan (left_column_id : ColumnID) (predicate_condition : PredicateCondition)
    (right_parameter : AllParameterVariant)
| OtherOperator.

#[warnings="-register-all"] Inductive AbstractOperator :=
| Operator (payload : OperatorPayload) (input_left input_right : option AbstractOperator).

Definition operator_inputs (op : AbstractOperator) : list AbstractOperator :=
  match op with
  | Operator _ l r => option_list l ++ option_list r
  end.

Fixpoint operator_size (op : AbstractOperator) : nat :=
  match op with
  | Operator _ l r =>
      S (match l with Some n => operator_size n | None => 0 end
         + match r with Some n => operator_size n | None => 0 end)
  end.

(** [std::dynamic_pointer_cast<const Validate>(input) != nullptr]. *)
Definition is_validate (input : option AbstractOperator) : bool :=
  match input with
  | Some (Operator Validate _ _) => true
  | _ => false
  end.

(** [std::dynamic_pointer_cast<const GetTable>(input)], with the name of
    the table when the cast succeeds. *)
Definition as_get_table (input : option AbstractOperator) : option string :=
  match input with
  | Some (Operator (GetTable table) _ _) => Some table
  | _ => None
  end.

Definition mvcc_message : string :=
  "Validation nodes are not supported. Please run the pipeline without MVCC columns.".

(** The branch of [_inspect_pqp_operator] taken for a [TableScan]. *)
Definition inspect_table_scan (build : Build) (input : option AbstractOperator)
    (column_id : ColumnID) (cond : PredicateCondition) (parameter : AllParameterVariant)
    (query_frequency : N) (records : list AccessRecord) : Outcome (list AccessRecord) :=
  let! _ := DebugAssert build (negb (is_validate input)) mvcc_message in
  match as_get_table input with
  | Some table =>
      let! compare := boost_get parameter in
      Returns (records ++ [make_access_record table column_id query_frequency cond compare])
  | None => Returns records
  end.

Definition operator_queue_size (queue : list AbstractOperator) : nat :=
  list_sum (map operator_size queue).

Lemma operator_queue_size_app (q1 q2 : list AbstractOperator) :
  operator_queue_size (q1 ++ q2) = (operator_queue_size q1 + operator_queue_size q2)%nat.
Proof. unfold operator_queue_size. rewrite map_app. apply list_sum_app. Qed.

(** The while loop of [_inspect_pqp_operator]: a scan is inspected and not
    descended into, every other operator hands its inputs to the queue. *)
Equations? pqp_loop (build : Build) (query_frequency : N)
    (queue : list AbstractOperator) (records : list AccessRecord)
    : Outcome (list AccessRecord) by wf (operator_queue_size queue) lt :=
  pqp_loop build query_frequency [] records := Returns records;
  pqp_loop build query_frequency (Operator (TableScan column_id cond parameter) l r :: queue)
      records :=
    match inspect_table_scan build l column_id cond parameter query_frequency records with
    | Returns records' => pqp_loop build query_frequency queue records'
    | Throws e => Throws e
    end;
  pqp_loop build query_frequency (node :: queue) records :=
    pqp_loop build query_frequency (queue ++ operator_inputs node) records.
Proof.
  all: rewrite ?operator_queue_size_app; unfold operator_queue_size; simpl.
  all: try lia.
  all: destruct input_left, input_right; simpl; lia.
Qed.

Definition _inspect_pqp_operator (build : Build) (op : AbstractOperator)
    (query_frequency : N) (records : list AccessRecord) : Outcome (list AccessRecord) :=
  pqp_loop build query_frequency [op] records.

(** *** The query plan cache and [_inspect_query_cache] *)

Record GDFSCacheEntry := {
  key : string;
  cached_value : AbstractLQPNode;
  frequency : N;
  priority : Q
}.

(** [SQLQueryCache::cache()]: either a [GDFSCache], given by the ordered
    iteration of its heap, or some other implementation, for which the
    dynamic cast yields a null pointer. *)
Inductive QueryCache :=
| GDFSCache (queue : list GDFSCacheEntry)
| OtherCache.

Definition warning_not_gdfs : string :=
  "BaseIndexEvaluator can only analyze GDFSCache instances! Evaluations may be useless...".

Definition warning_empty_cache : string :=
  "There are no logical query plans in the cache. Make sure that logical query plans get cached!".

(** The for loop over the heap. *)
Fixpoint inspect_cache_entries (build : Build) (entries : list GDFSCacheEntry)
    (records : list AccessRecord) : Outcome (list AccessRecord) :=
  match entries with
  | [] => Returns records
  | entry :: rest =>
      let! records' :=
        _inspect_lqp_operator build (cached_value entry) (frequency entry) records in
      inspect_cache_entries build rest records'
  end.

(** Returns what [LOG_WARN] printed and how the call ended; on return the
    value is [_access_records]. *)
Definition _inspect_query_cache (build : Build) (cache : QueryCache)
  : list string * Outcome (list AccessRecord) :=
  match cache with
  | OtherCache => ([warning_not_gdfs], Returns [])
  | GDFSCache queue =>
      (if Nat.eqb (length queue) 0 then [warning_empty_cache] else [],
       inspect_cache_entries build queue [])
  end.

(** *** The evaluator *)

Record IndexChoice := {
  choice_column_ref : ColumnRef;
  saved_work : Q;
  exists_ : bool;
  type : ColumnIndexType;
  memory_cost : Q
}.

(** [IndexChoice(column_ref, exists)]. *)
Definition new_index_choice (c : ColumnRef) (exists_ : bool) : IndexChoice :=
  {| choice_column_ref := c; saved_work := 0; exists_ := exists_;
     type := Invalid; memory_cost := 0 |}.

Record IndexInfo := {
  info_column_ids : list ColumnID;
  info_type : ColumnIndexType
}.

(** What the evaluator reads from the storage manager, the tables and
    their statistics (none of them among the sources).  Counts are
    unsigned integers; the statistics report rows as floats. *)
Record Storage := {
  table_names : list string;
  table_row_count : string -> N;
  table_chunk_count : string -> N;
  table_indexes : string -> list IndexInfo;
  chunk_index_memory : string -> N -> ColumnIndexType -> list ColumnID -> option N;
  column_value_bytes : string -> ColumnID -> N;
  column_distinct_count : string -> ColumnID -> N;
  statistics_row_count : string -> Q;
  predicate_row_count :
    string -> ColumnID -> PredicateCondition -> AllTypeVariant -> Q
}.

Definition wrap64 (n : N) : N := (n mod 2 ^ 64)%N.

(** [column_ids[0]]; every column reference the walker builds has exactly
    one column id. *)
Definition first_column (c : ColumnRef) : ColumnID := hd 0%N (column_ids c).

(** The work one record saves: the rows a scan need not look at, times
    how often the query ran. *)
Definition record_saved_work (storage : Storage) (record : AccessRecord) : Q :=
  let total_rows := statistics_row_count storage (table_name (column_ref record)) in
  let match_rows :=
    predicate_row_count storage (table_name (column_ref record))
      (first_column (column_ref record)) (condition record) (compare_value record) in
  let unscanned_rows := (total_rows - match_rows)%Q in
  (unscanned_rows * inject_Z (Z.of_N (query_frequency record)))%Q.

Definition _process_access_record (storage : Storage) (record : AccessRecord)
    (_saved_work : gmap ColumnRef Q) : gmap ColumnRef Q :=
  let saved_work := record_saved_work storage record in
  match _saved_work !! column_ref record with
  | Some sum => <[column_ref record := (sum + saved_work)%Q]> _saved_work
  | None => <[column_ref record := saved_work]> _saved_work
  end.

(** [_aggregate_access_records]: the state is [_new_indexes] and the
    evaluator's [_saved_work]. *)
Definition aggregate_step (storage : Storage)
    (state : gset ColumnRef * gmap ColumnRef Q) (access_record : AccessRecord)
  : gset ColumnRef * gmap ColumnRef Q :=
  ({[ column_ref access_record ]} ∪ fst state,
   _process_access_record storage access_record (snd state)).

Definition _aggregate_access_records (storage : Storage)
    (records : list AccessRecord) (_saved_work : gmap ColumnRef Q)
  : gset ColumnRef * gmap ColumnRef Q :=
  fold_left (aggregate_step storage) records (∅, _saved_work).

Definition _get_saved_work (_saved_work : gmap ColumnRef Q) (index_evaluation : IndexChoice) : Q :=
  match _saved_work !! choice_column_ref index_evaluation with
  | Some work => work
  | None => 0%Q
  end.

Definition _propose_index_type (index_evaluation : IndexChoice) : ColumnIndexType := GroupKey.

(** [_predict_memory_cost].  [predict_memory_consumption] stands for
    [BaseIndex::predict_memory_consumption], which is not among the
    sources.  [None] is the division by a chunk count of zero. *)
Definition _predict_memory_cost (storage : Storage)
    (predict_memory_consumption : ColumnIndexType -> N -> N -> N -> N)
    (index_evaluation : IndexChoice) : option N :=
  let table := table_name (choice_column_ref index_evaluation) in
  let distinct_value_count :=
    column_distinct_count storage table (first_column (choice_column_ref index_evaluation)) in
  let value_bytes :=
    fold_left (fun bytes column_id => wrap64 (bytes + column_value_bytes storage table column_id))
      (column_ids (choice_column_ref index_evaluation)) 0%N in
  let row_count := table_row_count storage table in
  let chunk_count := table_chunk_count storage table in
  if N.eqb chunk_count 0 then None
  else
    let chunk_rows := (row_count / chunk_count)%N in
    let chunk_distinct_values := (distinct_value_count / chunk_count)%N in
    let memory_cost_per_chunk :=
      predict_memory_consumption (type index_evaluation) chunk_rows
        chunk_distinct_values value_bytes in
    Some (wrap64 (memory_cost_per_chunk * chunk_count)).

Definition _existing_memory_cost (storage : Storage) (index_choice : IndexChoice) : N :=
  let table := table_name (choice_column_ref index_choice) in
  fold_left
    (fun memory_cost chunk_id =>
       match chunk_index_memory storage table (N.of_nat chunk_id) (type index_choice)
               (column_ids (choice_column_ref index_choice)) with
       | Some consumption => wrap64 (memory_cost + consumption)
       | None => memory_cost
       end)
    (seq 0 (N.to_nat (table_chunk_count storage table))) 0%N.

(** [_add_existing_indexes]: one choice per index of every table; the
    column is no longer a candidate for a new index. *)
Definition add_table_indexes (storage : Storage)
    (state : list IndexChoice * gset ColumnRef) (table : string)
  : list IndexChoice * gset ColumnRef :=
  fold_left
    (fun st index_info =>
       let c := {| table_name := table; column_ids := info_column_ids index_info |} in
       (fst st ++ [ {| choice_column_ref := c; saved_work := 0; exists_ := true;
                       type := info_type index_info; memory_cost := 0 |} ],
        snd st ∖ {[ c ]}))
    (table_indexes storage table) state.

Definition _add_existing_indexes (storage : Storage)
    (_choices : list IndexChoice) (_new_indexes : gset ColumnRef)
  : list IndexChoice * gset ColumnRef :=
  fold_left (add_table_indexes storage) (table_names storage) (_choices, _new_indexes).

Definition _add_new_indexes (_choices : list IndexChoice) (_new_indexes : gset ColumnRef)
  : list IndexChoice :=
  _choices ++ map (fun c => new_index_choice c false) (elements _new_indexes).

(** The body of the loop at the end of [evaluate]. *)
Definition evaluate_choice (storage : Storage)
    (predict_memory_consumption : ColumnIndexType -> N -> N -> N -> N)
    (_saved_work : gmap ColumnRef Q) (index_choice : IndexChoice) : Outcome IndexChoice :=
  let! sized :=
    if exists_ index_choice then
      Returns {| choice_column_ref := choice_column_ref index_choice;
                 saved_work := saved_work index_choice;
                 exists_ := exists_ index_choice;
                 type := type index_choice;
                 memory_cost := inject_Z (Z.of_N (_existing_memory_cost storage index_choice)) |}
    else
      let proposed :=
        {| choice_column_ref := choice_column_ref index_choice;
           saved_work := saved_work index_choice;
           exists_ := exists_ index_choice;
           type := _propose_index_type index_choice;
           memory_cost := memory_cost index_choice |} in
      match _predict_memory_cost storage predict_memory_consumption proposed with
      | None => Throws undefined_behaviour
      | Some cost =>
          Returns {| choice_column_ref := choice_column_ref proposed;
                     saved_work := saved_work proposed;
                     exists_ := exists_ proposed;
                     type := type proposed;
                     memory_cost := inject_Z (Z.of_N cost) |}
      end in
  Returns {| choice_column_ref := choice_column_ref sized;
             saved_work := _get_saved_work _saved_work sized;
             exists_ := exists_ sized;
             type := type sized;
             memory_cost := memory_cost sized |}.

Fixpoint evaluate_choices (storage : Storage)
    (predict_memory_consumption : ColumnIndexType -> N -> N -> N -> N)
    (_saved_work : gmap ColumnRef Q) (_choices : list IndexChoice)
  : Outcome (list IndexChoice) :=
  match _choices with
  | [] => Returns []
  | index_choice :: rest =>
      let! evaluated :=
        evaluate_choice storage predict_memory_consumption _saved_work index_choice in
      let! others := evaluate_choices storage predict_memory_consumption _saved_work rest in
      Returns (evaluated :: others)
  end.

(** [BaseIndexEvaluator::evaluate] with the hooks of [IndexEvaluator]:
    [_setup] clears [_saved_work], the cache is inspected, the records are
    aggregated, and the existing and the new indexes are evaluated. *)
Definition evaluate (build : Build) (storage : Storage)
    (predict_memory_consumption : ColumnIndexType -> N -> N -> N -> N)
    (cache : QueryCache) : list string * Outcome (list IndexChoice) :=
  let inspected := _inspect_query_cache build cache in
  (fst inspected,
   let! _access_records := snd inspected in
   let aggregated := _aggregate_access_records storage _access_records ∅ in
   let existing := _add_existing_indexes storage [] (fst aggregated) in
   let _choices := _add_new_indexes (fst existing) (snd existing) in
   evaluate_choices storage predict_memory_consumption (snd aggregated) _choices).

End IndexTuning.

(** ** The older walker over physical plans
    (src/lib/tuning/base_index_evaluator.cpp) *)

Module OperatorEvaluator.
Import IndexTuning.

Record AccessRecord := {
  column_ref : IndexSelector.ColumnRef;
  condition : PredicateCondition;
  compare_value : AllTypeVariant;
  query_frequency : N
}.

Definition make_access_record (table : string) (column_id : ColumnID)
    (frequency : N) (cond : PredicateCondition) (value : AllTypeVariant) : AccessRecord :=
  {| column_ref := {| IndexSelector.table_name := table; IndexSelector.column_id := column_id |};
     condition := cond;
     compare_value := value;
     query_frequency := frequency |}.

(** [_inspect_operator(op, query_frequency)].  A scan is recorded when its
    input is a [Validate] over a [GetTable].  For any other node the loop
    pushes the inputs of [op], the root it was called with, so it need not
    terminate: [fuel] bounds the number of iterations and [None] means
    that it ran out. *)
Fixpoint operator_loop (fuel : nat) (op : AbstractOperator) (query_frequency : N)
    (queue : list AbstractOperator) (records : list AccessRecord)
  : option (Outcome (list AccessRecord)) :=
  match queue with
  | [] => Some (Returns records)
  | node :: queue =>
      match fuel with
      | O => None
      | S fuel =>
          match node with
          | Operator (TableScan column_id cond parameter) scan_input _ =>
              match scan_input with
              | Some (Operator Validate validate_input _) =>
                  match as_get_table validate_input with
                  | Some table =>
                      match boost_get parameter with
                      | Returns compare =>
                          operator_loop fuel op query_frequency queue
                            (records ++ [make_access_record table column_id
                                           query_frequency cond compare])
                      | Throws e => Some (Throws e)
                      end
                  | None => operator_loop fuel op query_frequency queue records
                  end
              | _ => operator_loop fuel op query_frequency queue records
              end
          | _ =>
              operator_loop fuel op query_frequency
                (queue ++ operator_inputs op) records
          end
      end
  end.

Definition _inspect_operator (fuel : nat) (op : AbstractOperator) (query_frequency : N)
    (records : list AccessRecord) : option (Outcome (list AccessRecord)) :=
  operator_loop fuel op query_frequency [op] records.

(** *** The older [_inspect_query_cache] *)

(** A cached [SQLQueryPlan] with the roots of its operator trees. *)
Record PlanCacheEntry := {
  plan_key : string;
  tree_roots : list AbstractOperator;
  plan_frequency : N
}.

Inductive PlanCache :=
| GDFSPlanCache (queue : list PlanCacheEntry)
| OtherPlanCache.

Fixpoint inspect_tree_roots (fuel : nat) (roots : list AbstractOperator)
    (query_frequency : N) (records : list AccessRecord)
  : option (Outcome (list AccessRecord)) :=
  match roots with
  | [] => Some (Returns records)
  | operator_tree :: roots =>
      match _inspect_operator fuel operator_tree query_frequency records with
      | Some (Returns records') => inspect_tree_roots fuel roots query_frequency records'
      | other => other
      end
  end.

Fixpoint inspect_plans (fuel : nat) (entries : list PlanCacheEntry)
    (records : list AccessRecord) : option (Outcome (list AccessRecord)) :=
  match entries with
  | [] => Some (Returns records)
  | entry :: entries =>
      match inspect_tree_roots fuel (tree_roots entry) (plan_frequency entry) records with
      | Some (Returns records') => inspect_plans fuel entries records'
      | other => other
      end
  end.

(** This version asserts that the cache is a GDFS cache; [fuel] bounds
    each call of [_inspect_operator]. *)
Definition _inspect_query_cache (fuel : nat) (cache : PlanCache)
  : option (Outcome (list AccessRecord)) :=
  match cache with
  | OtherPlanCache => Some (Throws (logic_error "Expected GDFS Cache"))
  | GDFSPlanCache queue => inspect_plans fuel queue []
  end.

End OperatorEvaluator.

(** ** One tuning pass *)

Module Tuner.
Import IndexTuning.

(** Modelled from the spec: the control loop ([IndexTuner] is not among the
    sources).  A pass evaluates and then selects (section 4.6); the
    selector at hand takes evaluations over one column, so a choice is
    handed over with the first column of its reference. *)
Definition evaluation_of_choice (c : IndexChoice) : IndexSelector.IndexEvaluation :=
  {| IndexSelector.column :=
       {| IndexSelector.table_name := table_name (choice_column_ref c);
          IndexSelector.column_id := first_column (choice_column_ref c) |};
     IndexSelector.desirablility := saved_work c;
     IndexSelector.exists_ := exists_ c;
     IndexSelector.type := type c;
     IndexSelector.memory_cost := memory_cost c |}.

Definition tuning_pass (build : Build) (storage : Storage)
    (predict_memory_consumption : ColumnIndexType -> N -> N -> N -> N)
    (cache : QueryCache) (memory_budget : Q)
  : list string * Outcome (list IndexSelector.IndexOperation) :=
  let evaluated := evaluate build storage predict_memory_consumption cache in
  (fst evaluated,
   let! choices := snd evaluated in
   Returns (IndexSelector.select_indices (map evaluation_of_choice choices) memory_budget)).

End Tuner.

(** ** What the statements below are about *)

Module Workload.
Import IndexTuning.
Local Open Scope Q_scope.

(** The records of a column, in arrival order. *)
Definition matching (c : ColumnRef) (records : list AccessRecord) : list AccessRecord :=
  List.filter (fun r => bool_decide (column_ref r = c)) records.

(** The rows a record's predicate leaves unscanned in the table of [c],
    times the frequency of its query. *)
Definition unscanned_work (storage : Storage) (c : ColumnRef) (r : AccessRecord) : Q :=
  (statistics_row_count storage (table_name c)
   - predicate_row_count storage (table_name c) (first_column c)
       (condition r) (compare_value r))
  * inject_Z (Z.of_N (query_frequency r)).

Definition sum_of (f : AccessRecord -> Q) (records : list AccessRecord) : Q :=
  foldr (fun r acc => f r + acc) 0 records.

Definition double_frequency (r : AccessRecord) : AccessRecord :=
  {| column_ref := column_ref r; condition := condition r;
     compare_value := compare_value r; query_frequency := 2 * query_frequency r |}.

Definition double_matching (c : ColumnRef) (records : list AccessRecord) : list AccessRecord :=
  map (fun r => if bool_decide (column_ref r = c) then double_frequency r else r) records.

(** What the evaluator assigns to a choice once [_setup] has cleared
    [_saved_work] and the records have been aggregated. *)
Definition aggregated_saved_work (storage : Storage) (records : list AccessRecord)
    (choice : IndexChoice) : Q :=
  _get_saved_work (snd (_aggregate_access_records storage records ∅)) choice.

Definition work_of (m : gmap ColumnRef Q) (c : ColumnRef) : Q :=
  match m !! c with Some w => w | None => 0 end.

(** The prediction as the specification words it: the chunk's share of the
    distinct values is clamped to 1 when there are fewer distinct values
    than chunks. *)
Definition clamped_memory_cost (storage : Storage)
    (predict_memory_consumption : ColumnIndexType -> N -> N -> N -> N)
    (index_evaluation : IndexChoice) : N :=
  let table := table_name (choice_column_ref index_evaluation) in
  let distinct_value_count :=
    column_distinct_count storage table (first_column (choice_column_ref index_evaluation)) in
  let value_bytes :=
    fold_left (fun bytes column_id => wrap64 (bytes + column_value_bytes storage table column_id))
      (column_ids (choice_column_ref index_evaluation)) 0%N in
  let row_count := table_row_count storage table in
  let chunk_count := table_chunk_count storage table in
  let chunk_rows := (row_count / chunk_count)%N in
  let chunk_distinct_values :=
    if (distinct_value_count <? chunk_count)%N then 1%N
    else (distinct_value_count / chunk_count)%N in
  wrap64 (predict_memory_consumption (type index_evaluation) chunk_rows
            chunk_distinct_values value_bytes * chunk_count).

(** A memory model in the manner of a group-key index: an offset of 4
    bytes per row and, per distinct value, the value and an offset. *)
Definition offsets_and_values (t : ColumnIndexType) (rows distinct value_bytes : N) : N :=
  (rows * 4 + distinct * (value_bytes + 4))%N.

Definition is_literal (value : AllParameterVariant) : bool :=
  match value with Literal _ => true | _ => false end.

(** A reference that does not lead to a stored table: it has no original
    node, or the node is of another type. *)
Definition not_rooted_in_stored_table (lqp_ref : LQPColumnReference) : Prop :=
  match original_node lqp_ref with
  | None => True
  | Some original => original_type original <> StoredTableType
  end.

End Workload.

(** ** Concrete inputs *)

Module SelectorScenarios.
Import IndexSelector.
Local Open Scope Q_scope.

(** An evaluation of column [c] of table [t]. *)
Definition evaluation (c : ColumnID) (t : ColumnIndexType) (exists_ : bool)
    (desirablility memory_cost : Q) : IndexEvaluation :=
  {| column := {| table_name := "t"; column_id := c |};
     desirablility := desirablility;
     exists_ := exists_;
     type := t;
     memory_cost := memory_cost |}.
Arguments evaluation c%_N t exists_ (desirablility memory_cost)%_Q.

(** A budget-forced swap: an unused index of 60 MiB, a candidate of 50 MiB,
    a budget of 80 MiB. *)
Definition forced_swap : list IndexEvaluation :=
  [evaluation 2 GroupKey true 0 60; evaluation 1 GroupKey false 9990000 50].

(** Two existing indexes, far larger than the budget; one of them is a drag. *)
Definition oversized : list IndexEvaluation :=
  [evaluation 1 GroupKey true (-5) 50; evaluation 2 GroupKey true 5 100].

(** A candidate below the index that is sacrificed for a better one. *)
Definition overlooked : list IndexEvaluation :=
  [evaluation 0 GroupKey false 1 1; evaluation 1 GroupKey true 2 5;
   evaluation 2 GroupKey false 10 5].

(** Two candidates that differ in nothing but the column. *)
Definition twins : list IndexEvaluation :=
  [evaluation 0 GroupKey false 5 1; evaluation 1 GroupKey false 5 1].

(** Two index types competing for one column. *)
Definition competing (memory_cost : Q) : list IndexEvaluation :=
  [evaluation 1 GroupKey false 5 memory_cost;
   evaluation 1 AdaptiveRadixTree false 4 memory_cost].

End SelectorScenarios.

Module WorkloadScenarios.
Import IndexTuning.
Local Open Scope N_scope.

(** A table ["t"] of [rows] rows in [chunks] chunks whose columns hold
    [distinct] distinct values of 4 bytes, with a group-key index on
    column 1; every predicate matches one row. *)
Definition sample_storage (rows chunks distinct : N) : Storage :=
  {| table_names := ["t"%string];
     table_row_count := fun _ => rows;
     table_chunk_count := fun _ => chunks;
     table_indexes := fun _ => [ {| info_column_ids := [1%N]; info_type := GroupKey |} ];
     chunk_index_memory := fun _ _ _ _ => Some 72%N;
     column_value_bytes := fun _ _ => 4%N;
     column_distinct_count := fun _ _ => distinct;
     statistics_row_count := fun _ => inject_Z (Z.of_N rows);
     predicate_row_count := fun _ _ _ _ => 1%Q |}.

Definition column (c : ColumnID) : ColumnRef :=
  {| table_name := "t"; column_ids := [c] |}.
Arguments column c%_N.

(** A group-key index proposed for column [c]. *)
Definition proposed (c : ColumnID) : IndexChoice :=
  {| choice_column_ref := column c; saved_work := 0%Q; exists_ := false;
     type := GroupKey; memory_cost := 0%Q |}.
Arguments proposed c%_N.
Arguments sample_storage (rows chunks distinct)%_N.

Definition get_table (table : string) : AbstractOperator :=
  Operator (GetTable table) None None.

(** [SELECT * FROM t WHERE col_1 = 4] as a physical plan, without and with
    MVCC validation. *)
Definition plain_scan : AbstractOperator :=
  Operator OtherOperator
    (Some (Operator (TableScan 0 Equals (Literal (Int32 4))) (Some (get_table "t")) None))
    None.

Definition mvcc_scan : AbstractOperator :=
  Operator (TableScan 0 Equals (Literal (Int32 4)))
    (Some (Operator Validate (Some (get_table "t")) None)) None.

Definition stored_table_column (table : string) (column_id : ColumnID) : LQPColumnReference :=
  {| original_node := Some {| original_type := StoredTableType; original_table_name := table |};
     found_output_column_id := Some column_id |}.

(** The same query as a logical plan, and a comparison of two columns. *)
Definition literal_predicate : AbstractLQPNode :=
  LQPNode (OtherNode ProjectionType)
    (Some (LQPNode (PredicateNode (stored_table_column "t" 0) Equals (Literal (Int32 4)))
             (Some (LQPNode (StoredTableNode "t") None None)) None))
    None.

Definition column_comparison : AbstractLQPNode :=
  LQPNode (OtherNode ProjectionType)
    (Some (LQPNode (PredicateNode (stored_table_column "t" 0) Equals (ColumnParameter 1))
             (Some (LQPNode (StoredTableNode "t") None None)) None))
    None.

End WorkloadScenarios.

(** ** What the further statements about the selector are about *)

Module SelectorOutcome.
Import IndexSelector Configuration.
Local Open Scope Q_scope.

(** An existing index that costs more work than it saves. *)
Definition drag (e : IndexEvaluation) : bool :=
  exists_ e && Qltb (desirablility e) 0.

(** A proposed index that does not cost work. *)
Definition welcome (e : IndexEvaluation) : bool :=
  negb (exists_ e) && Qle_bool 0 (desirablility e).

(** No two evaluations have the same desirability. *)
Fixpoint distinct_desirabilities (l : list IndexEvaluation) : bool :=
  match l with
  | [] => true
  | e :: l =>
      forallb (fun x => negb (Qeq_bool (desirablility e) (desirablility x))) l
      && distinct_desirabilities l
  end.

End SelectorOutcome.

(** ** The shape of a plan *)

Module PlanShape.
Import IndexTuning Workload.

(** *** Logical plans *)

(** The nodes of a plan, the node itself first. *)
Fixpoint lqp_nodes (node : AbstractLQPNode) : list AbstractLQPNode :=
  match node with
  | LQPNode _ l r =>
      node :: match l with Some n => lqp_nodes n | None => [] end
           ++ match r with Some n => lqp_nodes n | None => [] end
  end.

(** The access record of a node: that of a predicate with a literal on a
    column of a stored table. *)
Definition node_record (query_frequency : N) (node : AbstractLQPNode) : option AccessRecord :=
  match node with
  | LQPNode (PredicateNode lqp_ref cond (Literal compare)) _ _ =>
      match original_node lqp_ref, found_output_column_id lqp_ref with
      | Some original, Some column_id =>
          if is_stored_table (original_type original) then
            Some (make_access_record (original_table_name original) column_id
                    query_frequency cond compare)
          else None
      | _, _ => None
      end
  | _ => None
  end.

(** A predicate on a stored table whose column id was not found, or whose
    right side is not a literal. *)
Definition unreadable (node : AbstractLQPNode) : bool :=
  match node with
  | LQPNode (PredicateNode lqp_ref _ value) _ _ =>
      match original_node lqp_ref with
      | Some original =>
          is_stored_table (original_type original)
          && negb (bool_decide (is_Some (found_output_column_id lqp_ref)) && is_literal value)
      | None => false
      end
  | _ => false
  end.

Definition readable_plan (op : AbstractLQPNode) : bool :=
  forallb (fun node => negb (unreadable node)) (lqp_nodes op).

(** *** Physical plans *)

Definition is_table_scan (op : AbstractOperator) : bool :=
  match op with
  | Operator (TableScan _ _ _) _ _ => true
  | _ => false
  end.

(** The scans of a plan that are not below another scan. *)
Fixpoint topmost_scans (op : AbstractOperator) : list AbstractOperator :=
  match op with
  | Operator (TableScan _ _ _) _ _ => [op]
  | Operator _ l r =>
      match l with Some n => topmost_scans n | None => [] end
      ++ match r with Some n => topmost_scans n | None => [] end
  end.

(** The access record of a scan: that of a scan with a literal on its
    right side that reads a [GetTable] directly. *)
Definition scan_record (query_frequency : N) (op : AbstractOperator) : option AccessRecord :=
  match op with
  | Operator (TableScan column_id cond (Literal compare)) input _ =>
      match as_get_table input with
      | Some table => Some (make_access_record table column_id query_frequency cond compare)
      | None => None
      end
  | _ => None
  end.

(** A scan the walker fails on: in a debug build one over a [Validate],
    in either build one over a [GetTable] whose right side is not a
    literal. *)
Definition unreadable_scan (build : Build) (op : AbstractOperator) : bool :=
  match op with
  | Operator (TableScan _ _ parameter) input _ =>
      match build with Debug => is_validate input | Release => false end
      || bool_decide (is_Some (as_get_table input)) && negb (is_literal parameter)
  | _ => false
  end.

Definition readable_operators (build : Build) (op : AbstractOperator) : bool :=
  forallb (fun scan => negb (unreadable_scan build scan)) (topmost_scans op).

End PlanShape.

(** ** The choices of a pass *)

Module ChoiceShape.
Import IndexTuning.

(** The columns that carry an index, table by table in the order of the
    storage manager. *)
Definition indexed_columns (storage : Storage) : list ColumnRef :=
  flat_map
    (fun table =>
       map (fun index_info =>
              {| table_name := table; column_ids := info_column_ids index_info |})
         (table_indexes storage table))
    (table_names storage).

Definition existing_choices (choices : list IndexChoice) : list IndexChoice :=
  List.filter exists_ choices.

Definition proposed_choices (choices : list IndexChoice) : list IndexChoice :=
  List.filter (fun c => negb (exists_ c)) choices.

(** The choice [_add_existing_indexes] makes for an index of a table. *)
Definition index_choice_of (table : string) (index_info : IndexInfo) : IndexChoice :=
  {| choice_column_ref :=
       {| table_name := table; column_ids := info_column_ids index_info |};
     saved_work := 0; exists_ := true; type := info_type index_info; memory_cost := 0 |}.

End ChoiceShape.

Module ChoiceScenarios.
Import IndexTuning.

(** The choices of a pass over [sample_storage 9 1 9] after the query
    [SELECT * FROM t WHERE col_1 = 4] ran ten times: the index on column
    1, and one proposed for column 0. *)
Definition sample_choices : list IndexChoice :=
  [ {| choice_column_ref := WorkloadScenarios.column 1; saved_work := 0%Q;
       exists_ := true; type := GroupKey; memory_cost := 72%Q |};
    {| choice_column_ref := WorkloadScenarios.column 0; saved_work := 80%Q;
       exists_ := false; type := GroupKey; memory_cost := 108%Q |} ].

(** A cache that holds one query, run [frequency] times. *)
Definition single_query (plan : AbstractLQPNode) (frequency : N) : QueryCache :=
  GDFSCache [ {| key := "query"; cached_value := plan; frequency := frequency;
                 priority := 1 |} ].

End ChoiceScenarios.

(** ** The aggregate node of the optimizer's syntax tree
    (src/lib/optimizer/abstract_syntax_tree/aggregate_node.cpp, first part) *)

Module AggregateNode.
Import IndexTuning.
Local Open Scope N_scope.

(** types.hpp, which defines [ColumnID], is not among the sources.  The
    type has 16 bits, like the [uint16_t] that counts the positions in
    [find_column_id_for_column_identifier_name];
    [static_cast<ColumnID::base_type>] cuts a position down to them, and
    [INVALID_COLUMN_ID] is the largest of these values. *)
Definition wrap16 (n : N) : N := n mod 2 ^ 16.

Definition INVALID_COLUMN_ID : ColumnID := 65535.

Inductive ExpressionType := ColumnIdentifier | FunctionIdentifier | OtherExpressionType.

#[global] Instance ExpressionType_eq_dec : EqDecision ExpressionType.
Proof. solve_decision. Defined.

Record ColumnIdentifierName := {
  column_name : string;
  table_name : option string
}.

(** The input of the node, as far as the node asks it: its column
    names, and what it answers when asked for a column by name (it may
    fail on the way, as this node may). *)
Record ChildNode := {
  output_column_names : list string;
  child_column_id_for_column_identifier_name :
    ColumnIdentifierName -> Outcome (option ColumnID)
}.

(** An expression through the accessors the node calls;
    [to_string input] stands for [ExpressionNode::to_string(input_node)],
    which is not among the sources. *)
Record ExpressionNode := {
  type : ExpressionType;
  alias : option string;
  column_id : ColumnID;
  to_string : option ChildNode -> string
}.

(** The members the functions below read. *)
Record AggregateNode := {
  _aggregate_expressions : list ExpressionNode;
  _groupby_column_ids : list ColumnID;
  left_child : option ChildNode
}.

(** *** [description] *)

(** The character that opens and closes an alias. *)
Definition double_quote : string :=
  String.String (Ascii.Ascii false true false false false true false false) "".

(** The lambda [stream_aggregate], on the text streamed so far. *)
Definition stream_aggregate (s : string) (aggregate_expr : ExpressionNode) : string :=
  let s := s +:+ to_string aggregate_expr None in
  match alias aggregate_expr with
  | Some a => s +:+ " AS " +:+ double_quote +:+ a +:+ double_quote
  | None => s
  end.

Definition description (node : AggregateNode) : string :=
  let s :=
    match _aggregate_expressions node with
    | it :: _ => stream_aggregate "" it
    | [] => ""
    end in
  let s :=
    fold_left (fun s it => stream_aggregate (s +:+ ", ") it)
      (_aggregate_expressions node) s in
  match _groupby_column_ids node with
  | [] => s
  | _ =>
      fold_left (fun s column_name => s +:+ pretty column_name +:+ ", ")
        (_groupby_column_ids node) (s +:+ " GROUP BY [")
      +:+ "]"
  end.

(** *** [_on_child_changed] *)

(** The loop over the group-by columns; [column_id] counts them.
    Indexing the names of the child past their end has no defined
    behaviour, nor has asking a child that is not there. *)
Fixpoint groupby_columns (child : option ChildNode) (groupby_column_ids : list ColumnID)
    (column_id : ColumnID) (names : list string) (ids : list ColumnID)
  : Outcome (list string * list ColumnID) :=
  match groupby_column_ids with
  | [] => Returns (names, ids)
  | groupby_column_id :: rest =>
      match child with
      | None => Throws undefined_behaviour
      | Some c =>
          match output_column_names c !! N.to_nat groupby_column_id with
          | Some name =>
              groupby_columns child rest (wrap16 (column_id + 1))
                (names ++ [name]) (ids ++ [column_id])
          | None => Throws undefined_behaviour
          end
      end
  end.

Definition aggregate_column_name (child : option ChildNode)
    (aggregate_expression : ExpressionNode) : string :=
  match alias aggregate_expression with
  | Some a => a
  | None => to_string aggregate_expression child
  end.

(** The loop over the aggregate expressions. *)
Fixpoint aggregate_columns (build : Build) (child : option ChildNode)
    (aggregate_expressions : list ExpressionNode)
    (names : list string) (ids : list ColumnID)
  : Outcome (list string * list ColumnID) :=
  match aggregate_expressions with
  | [] => Returns (names, ids)
  | aggregate_expression :: rest =>
      let! _ := DebugAssert build
                  (bool_decide (type aggregate_expression = FunctionIdentifier))
                  "Expression must be a function." in
      aggregate_columns build child rest
        (names ++ [aggregate_column_name child aggregate_expression])
        (ids ++ [INVALID_COLUMN_ID])
  end.

(** Returns [_output_column_names] and [_output_column_ids]. *)
Definition _on_child_changed (build : Build) (node : AggregateNode)
  : Outcome (list string * list ColumnID) :=
  let! _ := DebugAssert build (bool_decide (is_Some (left_child node)))
              "AggregateNode needs a child." in
  let! grouped :=
    groupby_columns (left_child node) (_groupby_column_ids node) 0 [] [] in
  aggregate_columns build (left_child node) (_aggregate_expressions node)
    (fst grouped) (snd grouped).

(** *** [find_column_id_for_column_identifier_name] *)

Definition ambiguous (column_name : string) : string :=
  "Column name " +:+ column_name +:+ " is ambiguous.".

Definition has_alias (column_name : string) (aggregate_expression : ExpressionNode) : bool :=
  bool_decide (alias aggregate_expression = Some column_name).

(** The loop over the aliases, from position [i] on. *)
Fixpoint search_aliases (column_name : string) (groupby_size : N)
    (aggregate_expressions : list ExpressionNode) (i : N)
    (column_id_aggregate : option ColumnID) : Outcome (option ColumnID) :=
  match aggregate_expressions with
  | [] => Returns column_id_aggregate
  | aggregate_expression :: rest =>
      if has_alias column_name aggregate_expression then
        let! _ := Assert (negb (bool_decide (is_Some column_id_aggregate)))
                    (ambiguous column_name) in
        search_aliases column_name groupby_size rest (i + 1)
          (Some (wrap16 (i + groupby_size)))
      else
        search_aliases column_name groupby_size rest (i + 1) column_id_aggregate
  end.

(** The search among the aliases.  With [2 ^ 16] aggregate expressions or
    more the 16-bit counter wraps around before it reaches their number:
    the loop then meets an alias that matches for a second time and fails,
    or, when none of the first [2 ^ 16] matches, it does not end
    ([None]). *)
Definition column_id_aggregate (node : AggregateNode)
    (column_identifier_name : ColumnIdentifierName) : option (Outcome (option ColumnID)) :=
  match table_name column_identifier_name with
  | Some _ => Some (Returns None)
  | None =>
      let name := column_name column_identifier_name in
      if N.of_nat (length (_aggregate_expressions node)) <? 2 ^ 16 then
        Some (search_aliases name (N.of_nat (length (_groupby_column_ids node)))
                (_aggregate_expressions node) 0 None)
      else if existsb (has_alias name)
                (take (N.to_nat (2 ^ 16)) (_aggregate_expressions node)) then
        Some (Throws (logic_error (ambiguous name)))
      else None
  end.

(** [std::find] with [std::distance]: the first position of [x]. *)
Definition position_of (x : ColumnID) (l : list ColumnID) : option nat :=
  fst <$> list_find (fun y => y = x) l.

Definition column_id_groupby (node : AggregateNode) (column_id_child : option ColumnID)
  : option ColumnID :=
  match column_id_child with
  | Some c =>
      (fun position => wrap16 (N.of_nat position))
        <$> position_of c (_groupby_column_ids node)
  | None => None
  end.

Definition find_column_id_for_column_identifier_name (build : Build)
    (node : AggregateNode) (column_identifier_name : ColumnIdentifierName)
  : option (Outcome (option ColumnID)) :=
  match DebugAssert build (bool_decide (is_Some (left_child node)))
          "AggregateNode needs a child." with
  | Throws e => Some (Throws e)
  | Returns _ =>
      match column_id_aggregate node column_identifier_name with
      | None => None
      | Some (Throws e) => Some (Throws e)
      | Some (Returns column_id_aggregate) =>
          Some
            match left_child node with
            | None => Throws undefined_behaviour
            | Some child =>
                let! column_id_child :=
                  child_column_id_for_column_identifier_name child
                    column_identifier_name in
                let column_id_groupby := column_id_groupby node column_id_child in
                let! _ := Assert (negb (bool_decide (is_Some column_id_aggregate))
                                  || negb (bool_decide (is_Some column_id_groupby)))
                            (ambiguous (column_name column_identifier_name)) in
                Returns match column_id_aggregate with
                        | Some c => Some c
                        | None => column_id_groupby
                        end
            end
      end
  end.

(** *** [find_column_id_for_expression], [get_column_id_for_expression]

    [equal] stands for [ExpressionNode::operator==], which is not among
    the sources.  The aggregate expressions are values here, so none of
    them is a null pointer. *)
Definition find_column_id_for_expression
    (equal : ExpressionNode -> ExpressionNode -> bool)
    (node : AggregateNode) (expression : ExpressionNode) : Outcome (option ColumnID) :=
  let iter_aggregate_expressions :=
    fst <$> list_find (fun rhs => equal expression rhs = true)
              (_aggregate_expressions node) in
  let iter_groupby_columns :=
    if bool_decide (type expression = ColumnIdentifier) then
      position_of (column_id expression) (_groupby_column_ids node)
    else None in
  let in_aggregate_expressions := bool_decide (is_Some iter_aggregate_expressions) in
  let in_groupby_columns := bool_decide (is_Some iter_groupby_columns) in
  if negb in_aggregate_expressions && negb in_groupby_columns then Returns None
  else
    let! _ := Assert (xorb in_aggregate_expressions in_groupby_columns)
                "expression is ambiguous" in
    match iter_aggregate_expressions, iter_groupby_columns with
    | Some idx, _ =>
        Returns (Some (wrap16 (N.of_nat idx
                               + N.of_nat (length (_groupby_column_ids node)))))
    | None, Some idx => Returns (Some (wrap16 (N.of_nat idx)))
    | None, None => Returns None
    end.

Definition get_column_id_for_expression (build : Build)
    (equal : ExpressionNode -> ExpressionNode -> bool)
    (node : AggregateNode) (expression : ExpressionNode) : Outcome ColumnID :=
  let! column_id := find_column_id_for_expression equal node expression in
  let! _ := DebugAssert build (bool_decide (is_Some column_id))
              "Expression could not be resolved." in
  match column_id with
  | Some c => Returns c
  | None => Throws undefined_behaviour
  end.

End AggregateNode.

(** ** What the statements about the aggregate node are about *)

Module AggregateShape.
Import IndexTuning AggregateNode.
Local Open Scope N_scope.

(** An aggregate expression as [description] shows it. *)
Definition shown (aggregate_expr : ExpressionNode) : string :=
  stream_aggregate "" aggregate_expr.

Definition group_by_clause (groupby_column_ids : list ColumnID) : string :=
  match groupby_column_ids with
  | [] => ""
  | _ =>
      " GROUP BY ["
      +:+ String.concat "" (map (fun c => pretty c +:+ ", ") groupby_column_ids)
      +:+ "]"
  end.

Definition in_range (child : ChildNode) (groupby_column_id : ColumnID) : bool :=
  (N.to_nat groupby_column_id <? length (output_column_names child))%nat.

Definition is_function (aggregate_expression : ExpressionNode) : bool :=
  bool_decide (type aggregate_expression = FunctionIdentifier).

(** The number of columns of the node's output. *)
Definition column_count (node : AggregateNode) : N :=
  N.of_nat (length (_groupby_column_ids node) + length (_aggregate_expressions node)).

Definition asserts (build : Build) : bool :=
  match build with Debug => true | Release => false end.

(** The column names and ids of an aggregate over [child]: the group-by
    columns first, numbered from 0, then the aggregates, without an id. *)
Definition output_columns (child : ChildNode) (node : AggregateNode)
  : list string * list ColumnID :=
  (map (fun g => nth (N.to_nat g) (output_column_names child) ""%string)
     (_groupby_column_ids node)
   ++ map (aggregate_column_name (Some child)) (_aggregate_expressions node),
   map (fun i => wrap16 (N.of_nat i)) (seq 0 (length (_groupby_column_ids node)))
   ++ replicate (length (_aggregate_expressions node)) INVALID_COLUMN_ID).

End AggregateShape.

Module AggregateScenarios.
Import IndexTuning AggregateNode.
Local Open Scope N_scope.

(** The input: a table with the columns [a], [b] and [c], found by name. *)
Definition stored_columns : ChildNode :=
  {| output_column_names := ["a"; "b"; "c"]%string;
     child_column_id_for_column_identifier_name := fun name =>
       Returns (if bool_decide (column_name name = "a"%string) then Some 0
                else if bool_decide (column_name name = "b"%string) then Some 1
                else if bool_decide (column_name name = "c"%string) then Some 2
                else None) |}.

(** [SUM(c)], with or without an alias. *)
Definition sum_of_c (alias : option string) : ExpressionNode :=
  {| type := FunctionIdentifier; alias := alias; column_id := INVALID_COLUMN_ID;
     to_string := fun _ => "SUM(c)"%string |}.

Definition column (id : ColumnID) : ExpressionNode :=
  {| type := ColumnIdentifier; alias := None; column_id := id;
     to_string := fun _ => "column"%string |}.

(** Expressions are the same when type, alias and column agree. *)
Definition same_expression (x y : ExpressionNode) : bool :=
  bool_decide (type x = type y) && bool_decide (alias x = alias y)
  && bool_decide (column_id x = column_id y).

(** [SELECT b, SUM(c) AS total FROM t GROUP BY b]. *)
Definition total_by_b : AggregateNode :=
  {| _aggregate_expressions := [sum_of_c (Some "total"%string)];
     _groupby_column_ids := [1];
     left_child := Some stored_columns |}.

Definition unqualified (name : string) : ColumnIdentifierName :=
  {| column_name := name; table_name := None |}.

(** Two sums under one alias. *)
Definition total_twice : AggregateNode :=
  {| _aggregate_expressions :=
       [sum_of_c (Some "total"%string); sum_of_c (Some "total"%string)];
     _groupby_column_ids := [1];
     left_child := Some stored_columns |}.

End AggregateScenarios.


(** * Comparisons of the float model *)

Lemma Qltb_lt (x y : Q) : Qltb x y = true <-> (x < y)%Q.
Proof.
  unfold Qltb. rewrite negb_true_iff. split.
  - intros H. apply Qnot_le_lt. intros Hle. apply Qle_bool_iff in Hle. congruence.
  - intros H. destruct (Qle_bool y x) eqn:E; [|reflexivity].
    apply Qle_bool_iff in E. lra.
Qed.

Lemma Qltb_ge (x y : Q) : Qltb x y = false <-> (y <= x)%Q.
Proof.
  unfold Qltb. rewrite negb_false_iff. apply Qle_bool_iff.
Qed.


(** * Properties of the selector *)

Module SelectorFacts.
Import IndexSelector Configuration.
Local Open Scope Q_scope.

(** ** Sums over evaluations *)

Lemma total_app f (l1 l2 : list IndexEvaluation) :
  total f (l1 ++ l2) == total f l1 + total f l2.
Proof.
  induction l1 as [|e l1 IH]; simpl; [lra|]. rewrite IH. lra.
Qed.

Lemma live_before_app (l1 l2 : list IndexEvaluation) :
  live_before (l1 ++ l2) = live_before l1 ++ live_before l2.
Proof. apply List.filter_app. Qed.

Lemma total_nonneg f (l : list IndexEvaluation) :
  Forall (fun e => 0 <= f e) l -> 0 <= total f l.
Proof.
  induction 1 as [|e l He Hl IH]; simpl; lra.
Qed.

Lemma Forall_live_before (P : IndexEvaluation -> Prop) (l : list IndexEvaluation) :
  Forall P l -> Forall P (live_before l).
Proof.
  induction 1 as [|e l He Hl IH]; simpl; [constructor|].
  destruct (exists_ e); [constructor|]; assumption.
Qed.

Lemma total_permutation f (l1 l2 : list IndexEvaluation) :
  l1 ≡ₚ l2 -> total f l1 == total f l2.
Proof.
  induction 1; simpl; lra.
Qed.

Lemma live_before_permutation (l1 l2 : list IndexEvaluation) :
  l1 ≡ₚ l2 -> live_before l1 ≡ₚ live_before l2.
Proof.
  induction 1 as [|x l l' H IH|x y l|l l' l'' H1 IH1 H2 IH2]; simpl.
  - reflexivity.
  - destruct (exists_ x); [constructor|]; assumption.
  - destruct (exists_ x), (exists_ y); try reflexivity. apply perm_swap.
  - etransitivity; eassumption.
Qed.

(** ** The sort *)

Lemma sort_insert_permutation e (l : list IndexEvaluation) :
  sort_insert e l ≡ₚ e :: l.
Proof.
  induction l as [|x l IH]; simpl; [reflexivity|].
  destruct (evaluation_lt x e); [|reflexivity].
  rewrite IH. apply perm_swap.
Qed.

Lemma sort_permutation (l : list IndexEvaluation) : sort l ≡ₚ l.
Proof.
  induction l as [|e l IH]; simpl; [reflexivity|].
  rewrite sort_insert_permutation. now constructor.
Qed.

Lemma ascending_nil : ascending [].
Proof. intros i j a b _ H. rewrite lookup_nil in H. discriminate. Qed.

Lemma ascending_cons e (l : list IndexEvaluation) :
  ascending (e :: l) <->
  Forall (fun x => desirablility e <= desirablility x) l /\ ascending l.
Proof.
  split.
  - intros H. split.
    + apply Forall_forall. intros x Hx. apply list_elem_of_lookup in Hx as [i Hi].
      apply (H 0%nat (S i) e x); [lia|reflexivity|exact Hi].
    + intros i j a b Hij Ha Hb. apply (H (S i) (S j) a b); [lia|exact Ha|exact Hb].
  - intros [Hall Hl] i j a b Hij Ha Hb.
    destruct j as [|j]; [lia|]. simpl in Hb.
    destruct i as [|i]; simpl in Ha.
    + injection Ha as <-. rewrite Forall_forall in Hall. apply Hall.
      apply list_elem_of_lookup. eauto.
    + apply (Hl i j a b); [lia|exact Ha|exact Hb].
Qed.

Lemma sort_insert_ascending e (l : list IndexEvaluation) :
  ascending l -> ascending (sort_insert e l).
Proof.
  induction l as [|x l IH]; intros Hl; simpl.
  - apply ascending_cons. split; [constructor|apply ascending_nil].
  - apply ascending_cons in Hl as [Hx Hl].
    destruct (evaluation_lt x e) eqn:E; unfold evaluation_lt in E.
    + apply Qltb_lt in E. apply ascending_cons. split; [|auto].
      rewrite sort_insert_permutation. constructor; [lra|exact Hx].
    + apply Qltb_ge in E. apply ascending_cons. split.
      * constructor; [exact E|]. eapply Forall_impl; [exact Hx|].
        simpl. intros y Hy. lra.
      * apply ascending_cons. split; assumption.
Qed.

Lemma sort_ascending (l : list IndexEvaluation) : ascending (sort l).
Proof.
  induction l as [|e l IH]; simpl; [apply ascending_nil|].
  now apply sort_insert_ascending.
Qed.

(** ** The scan for indexes to sacrifice, and their deletion *)

Lemma sacrifice_spec required (l : list IndexEvaluation) s o :
  let found := sacrifice required l s o in
  (snd found <= length l)%nat
  /\ fst (fst found) == s + saved_work (live_before (take (snd found) l))
  /\ snd (fst found) == o + memory_in_use (live_before (take (snd found) l)).
Proof.
  revert s o. induction l as [|e l IH]; intros s o; simpl.
  - repeat split; simpl; try lia; unfold saved_work, memory_in_use; simpl; lra.
  - destruct (Qltb o required).
    + destruct (exists_ e) eqn:Ee.
      * specialize (IH (s + desirablility e) (o + memory_cost e)).
        destruct (sacrifice required l (s + desirablility e) (o + memory_cost e))
          as [[s' o'] k]. simpl in *. rewrite Ee.
        destruct IH as (Hk & Hs & Ho). unfold saved_work, memory_in_use in *. simpl.
        repeat split; [lia|lra|lra].
      * specialize (IH s o).
        destruct (sacrifice required l s o) as [[s' o'] k]. simpl in *. rewrite Ee.
        destruct IH as (Hk & Hs & Ho). repeat split; [lia|lra|lra].
    + simpl. repeat split; try lia; unfold saved_work, memory_in_use; simpl; lra.
Qed.

Lemma delete_memory_spec (deleted : list IndexEvaluation) m :
  delete_memory deleted m == m - memory_in_use (live_before deleted).
Proof.
  unfold delete_memory, memory_in_use. revert m.
  induction deleted as [|e l IH]; intros m; simpl; [lra|].
  rewrite IH. unfold delete_step. destruct (exists_ e); simpl; lra.
Qed.

Lemma window_split (worst : IndexEvaluation) (rest : list IndexEvaluation) :
  worst :: rest = removelast (worst :: rest) ++ [List.last (worst :: rest) worst].
Proof. apply app_removelast_last. discriminate. Qed.

Lemma hd_removelast (worst : IndexEvaluation) (rest : list IndexEvaluation) :
  hd (List.last (worst :: rest) worst) (removelast (worst :: rest)) = worst.
Proof. destruct rest; reflexivity. Qed.

Lemma select_loop_Selects memory_budget window m :
  Selects memory_budget window m (select_loop memory_budget window m).
Proof.
  funelim (select_loop memory_budget window m); [constructor|].
  clear Heqcall.
  set (best := List.last (worst_index :: rest) worst_index) in *.
  set (below := removelast (worst_index :: rest)) in *.
  assert (Hwin : worst_index :: rest = below ++ [best]) by apply window_split.
  assert (Hhd : hd best below = worst_index) by apply hd_removelast.
  assert (Helse :
    (0 <= desirablility (hd best below)
     \/ - desirablility (hd best below) <= desirablility best) ->
    Selects memory_budget (worst_index :: rest) memory_consumption
      (if exists_ best then select_loop memory_budget below memory_consumption
       else
         let required_memory := memory_cost best + memory_consumption - memory_budget in
         let found := sacrifice required_memory below 0 0 in
         if Qle_bool required_memory (snd (fst found))
            && Qle_bool (fst (fst found)) (desirablility best)
         then
           delete_operations (take (snd found) below)
             ++ (best, true)
             :: select_loop memory_budget (drop (snd found) below)
                  (delete_memory (take (snd found) below) memory_consumption
                   + memory_cost best)
         else select_loop memory_budget below memory_consumption)).
  { intros Hkeep. rewrite Hwin.
    destruct (exists_ best) eqn:Eb; [now apply Selects_keep_best|].
    cbv zeta.
    set (required := memory_cost best + memory_consumption - memory_budget) in *.
    destruct (sacrifice_spec required below 0 0) as (_ & Hs & Ho).
    set (found := sacrifice required below 0 0) in *.
    destruct (Qle_bool required (snd (fst found))) eqn:E3;
      [destruct (Qle_bool (fst (fst found)) (desirablility best)) eqn:E4|];
      simpl; try now apply Selects_skip_best.
    apply Qle_bool_iff in E3, E4.
    rewrite <- (take_drop (snd found) below) at 1. rewrite <- app_assoc.
    apply Selects_swap; try assumption.
    - now rewrite take_drop.
    - unfold required in E3. lra.
    - lra. }
  destruct (Qltb (desirablility worst_index) 0) eqn:E1;
    [destruct (Qltb (desirablility best) (- desirablility worst_index)) eqn:E2|];
    simpl.
  - apply Qltb_lt in E1, E2.
    destruct (exists_ worst_index) eqn:Ew;
      [apply Selects_delete_worst|apply Selects_pass_worst]; assumption.
  - apply Qltb_ge in E2. apply Helse. rewrite Hhd. now right.
  - apply Qltb_ge in E1. apply Helse. rewrite Hhd. now left.
Qed.

(** ** The loop over positions and the loop over the window *)

Lemma range_empty (v : list IndexEvaluation) from to :
  (to <= from)%nat -> range v from to = [].
Proof. intros H. unfold range. now replace (to - from)%nat with 0%nat by lia. Qed.

Lemma range_cons (v : list IndexEvaluation) from to x :
  (from < to)%nat -> v !! from = Some x -> range v from to = x :: range v (S from) to.
Proof.
  intros Hlt Hx. unfold range. rewrite (drop_S v x from Hx).
  now replace (to - from)%nat with (S (to - S from)) by lia.
Qed.

Lemma range_snoc (v : list IndexEvaluation) from to y :
  (from < to)%nat -> v !! (to - 1)%nat = Some y ->
  range v from to = range v from (to - 1) ++ [y].
Proof.
  intros Hlt Hy. unfold range.
  replace (to - from)%nat with (S (to - 1 - from)) by lia.
  apply take_S_r. rewrite lookup_drop.
  now replace (from + (to - 1 - from))%nat with (to - 1)%nat by lia.
Qed.

Lemma range_take (v : list IndexEvaluation) from to k :
  (from + k <= to)%nat -> take k (range v from to) = range v from (from + k).
Proof.
  intros H. unfold range. rewrite take_take.
  f_equal. lia.
Qed.

Lemma range_drop (v : list IndexEvaluation) from to k :
  drop k (range v from to) = range v (from + k) to.
Proof.
  unfold range. rewrite skipn_firstn_comm, drop_drop. f_equal. lia.
Qed.

Lemma range_length (v : list IndexEvaluation) from to :
  (to <= length v)%nat -> length (range v from to) = (to - from)%nat.
Proof. intros H. unfold range. rewrite length_take, length_drop. lia. Qed.

Lemma sacrifice_at_range (v : list IndexEvaluation) required distance from s o :
  (from + distance <= length v)%nat ->
  sacrifice_at v required distance from s o
  = let found := sacrifice required (range v from (from + distance)) s o in
    (fst found, (from + snd found)%nat).
Proof.
  revert from s o. induction distance as [|distance IH]; intros from s o Hlen.
  - rewrite range_empty by lia. simpl. f_equal. lia.
  - destruct (lookup_lt_is_Some_2 v from) as [e He]; [lia|].
    rewrite (range_cons v from (from + S distance) e) by (lia || exact He).
    simpl. rewrite He. destruct (Qltb o required); [|simpl; f_equal; lia].
    replace (from + S distance)%nat with (S from + distance)%nat by lia.
    destruct (exists_ e).
    + rewrite IH by lia.
      destruct (sacrifice required (range v (S from) (S from + distance))
                  (s + desirablility e) (o + memory_cost e)) as [[s' o'] k].
      simpl. f_equal. lia.
    + rewrite IH by lia.
      destruct (sacrifice required (range v (S from) (S from + distance)) s o)
        as [[s' o'] k].
      simpl. f_equal. lia.
Qed.

Lemma select_at_window fuel (v : list IndexEvaluation) memory_budget worst_index best_end m :
  (best_end <= length v)%nat -> (best_end - worst_index <= fuel)%nat ->
  select_at fuel v memory_budget worst_index best_end m
  = select_loop memory_budget (range v worst_index best_end) m.
Proof.
  revert worst_index best_end m.
  induction fuel as [|fuel IH]; intros w be m Hlen Hfuel.
  - rewrite range_empty by lia. now rewrite select_loop_equation_1.
  - destruct (Nat.le_gt_cases be w) as [Hle|Hlt].
    + rewrite range_empty by lia. rewrite select_loop_equation_1. cbn [select_at].
      destruct (Nat.leb_spec be w); [reflexivity|lia].
    + destruct (lookup_lt_is_Some_2 v w) as [worst Hw]; [lia|].
      destruct (lookup_lt_is_Some_2 v (be - 1)%nat) as [best Hb]; [lia|].
      cbn [select_at]. destruct (Nat.leb_spec be w) as [|_]; [lia|].
      rewrite Hw, Hb.
      pose proof (range_cons v w be worst Hlt Hw) as Hwin.
      pose proof (range_snoc v w be best Hlt Hb) as Hsnoc.
      rewrite Hwin, select_loop_equation_2. cbv zeta.
      rewrite <- Hwin, Hsnoc, List.last_last, removelast_last.
      rewrite (IH (S w) be), (IH w (be - 1)%nat) by lia.
      rewrite (sacrifice_at_range v _ (be - 1 - w) w 0 0) by lia.
      replace (w + (be - 1 - w))%nat with (be - 1)%nat by lia.
      pose proof (sacrifice_spec (memory_cost best + m - memory_budget)
                    (range v w (be - 1)) 0 0) as Hspec.
      destruct (sacrifice (memory_cost best + m - memory_budget)
                  (range v w (be - 1)) 0 0) as [[s o] k].
      cbn [fst snd] in *. destruct Hspec as [Hk _].
      rewrite range_length in Hk by lia.
      rewrite (range_take v w (be - 1) k) by lia.
      rewrite (range_drop v w (be - 1) k).
      rewrite (IH (w + k)%nat (be - 1)%nat) by lia.
      rewrite (IH (S w) be) by lia.
      reflexivity.
Qed.

Lemma select_plan_loop evaluations memory_budget :
  select_plan evaluations memory_budget
  = select_loop memory_budget (sort evaluations)
      (initial_memory_consumption (sort evaluations)).
Proof.
  unfold select_plan. destruct evaluations as [|e evaluations].
  - simpl. now rewrite select_loop_equation_1.
  - cbv zeta. rewrite select_at_window by lia. unfold range.
    now rewrite Nat.sub_0_r, drop_0, firstn_all.
Qed.

Lemma select_plan_Selects evaluations memory_budget :
  Selects memory_budget (sort evaluations)
    (initial_memory_consumption (sort evaluations))
    (select_plan evaluations memory_budget).
Proof. rewrite select_plan_loop. apply select_loop_Selects. Qed.

Lemma consumption_fold (l : list IndexEvaluation) a :
  fold_left consumption_step l a == a + memory_in_use (live_before l).
Proof.
  unfold memory_in_use. revert a. induction l as [|e l IH]; intros a; simpl; [lra|].
  rewrite IH. unfold consumption_step. destruct (exists_ e); simpl; lra.
Qed.

Lemma initial_memory_consumption_spec (l : list IndexEvaluation) :
  initial_memory_consumption l == memory_in_use (live_before l).
Proof. unfold initial_memory_consumption. rewrite consumption_fold. lra. Qed.

Lemma initial_memory_consumption_sort (l : list IndexEvaluation) :
  initial_memory_consumption (sort l) == memory_in_use (live_before l).
Proof.
  rewrite initial_memory_consumption_spec. apply total_permutation.
  apply live_before_permutation, sort_permutation.
Qed.

(** ** Applying a plan *)

Lemma memory_trace_app t (p1 p2 : list PlannedOperation) :
  memory_trace t (p1 ++ p2) = memory_trace t p1 ++ memory_trace (memory_after t p1) p2.
Proof.
  revert t. induction p1 as [|p p1 IH]; intros t; simpl; [reflexivity|].
  now rewrite IH.
Qed.

Lemma memory_after_app t (p1 p2 : list PlannedOperation) :
  memory_after t (p1 ++ p2) = memory_after (memory_after t p1) p2.
Proof. apply fold_left_app. Qed.

Lemma saved_work_after_app s (p1 p2 : list PlannedOperation) :
  saved_work_after s (p1 ++ p2) = saved_work_after (saved_work_after s p1) p2.
Proof. apply fold_left_app. Qed.

Lemma delete_operations_cons e (l : list IndexEvaluation) :
  delete_operations (e :: l)
  = if exists_ e then (e, false) :: delete_operations l else delete_operations l.
Proof. unfold delete_operations. simpl. now destruct (exists_ e). Qed.

Lemma delete_operations_memory bound (deleted : list IndexEvaluation) t :
  Forall (fun e => 0 <= memory_cost e) deleted -> t <= bound ->
  Forall (fun x => x <= bound) (memory_trace t (delete_operations deleted))
  /\ memory_after t (delete_operations deleted)
     == t - memory_in_use (live_before deleted).
Proof.
  intros Hall. revert t. unfold memory_in_use.
  induction Hall as [|e l He Hl IH]; intros t Ht.
  - split; [constructor|]. simpl. lra.
  - rewrite delete_operations_cons. simpl. destruct (exists_ e).
    + simpl. unfold apply_memory at 1 3; simpl.
      destruct (IH (t - memory_cost e)) as [IH1 IH2]; [lra|].
      split; [constructor; [lra|exact IH1]|].
      unfold memory_after in *. rewrite IH2. lra.
    + now apply IH.
Qed.

Lemma delete_operations_saved_work (deleted : list IndexEvaluation) s :
  saved_work_after s (delete_operations deleted)
  == s - saved_work (live_before deleted).
Proof.
  revert s. unfold saved_work. induction deleted as [|e l IH]; intros s.
  - simpl. lra.
  - rewrite delete_operations_cons. simpl. destruct (exists_ e); [|apply IH].
    simpl. unfold saved_work_after in *. rewrite IH.
    unfold apply_saved_work; simpl. lra.
Qed.

Lemma created_delete_operations (deleted : list IndexEvaluation) :
  created (delete_operations deleted) = [].
Proof.
  induction deleted as [|e l IH]; [reflexivity|].
  rewrite delete_operations_cons. now destruct (exists_ e).
Qed.

Lemma dropped_delete_operations (deleted : list IndexEvaluation) :
  dropped (delete_operations deleted) = live_before deleted.
Proof.
  induction deleted as [|e l IH]; [reflexivity|].
  rewrite delete_operations_cons. simpl. destruct (exists_ e); [|exact IH].
  unfold dropped in *. simpl. now rewrite IH.
Qed.

Lemma created_app (p1 p2 : list PlannedOperation) :
  created (p1 ++ p2) = created p1 ++ created p2.
Proof. unfold created. now rewrite List.filter_app, map_app. Qed.

Lemma dropped_app (p1 p2 : list PlannedOperation) :
  dropped (p1 ++ p2) = dropped p1 ++ dropped p2.
Proof. unfold dropped. now rewrite List.filter_app, map_app. Qed.

(** ** Invariants of the loop *)

(** Induction on the derivation, with the same names in every proof. *)
Ltac Selects_induction :=
  induction 1 as [m|worst rest m plan Hneg Hbest Hex Hsel IH
                 |worst rest m plan Hneg Hbest Hex Hsel IH
                 |below best m plan Hkeep Hex Hsel IH
                 |deleted between best m plan Hkeep Hex Hmem Hwork Hsel IH
                 |below best m plan Hkeep Hex Hsel IH].

Lemma Selects_memory_bound memory_budget window m plan :
  Selects memory_budget window m plan ->
  forall bound t,
    memory_budget <= bound ->
    Forall (fun e => 0 <= memory_cost e) window ->
    t == m -> t <= bound ->
    Forall (fun x => x <= bound) (memory_trace t plan)
    /\ memory_after t plan <= bound.
Proof.
  Selects_induction;
    intros bound t Hb Hall Ht Htb.
  - split; [constructor|exact Htb].
  - apply Forall_cons in Hall as [Hw Hrest].
    destruct (IH bound (t - memory_cost worst)) as [IH1 IH2]; try assumption; try lra.
    simpl. unfold apply_memory at 1 3; simpl. split; [constructor; [lra|]|]; assumption.
  - apply Forall_cons in Hall as [Hw Hrest]. now apply IH.
  - apply Forall_app in Hall as [Hbelow _]. now apply IH.
  - apply Forall_app in Hall as [Hdel Hall]. apply Forall_app in Hall as [Hbetween _].
    destruct (delete_operations_memory bound deleted t Hdel Htb) as [Hd1 Hd2].
    pose proof (delete_memory_spec deleted m) as Hdm.
    rewrite memory_trace_app, memory_after_app. simpl.
    set (t1 := memory_after t (delete_operations deleted)) in *.
    unfold apply_memory at 1 3; simpl.
    destruct (IH bound (t1 + memory_cost best)) as [IH1 IH2]; try assumption; try lra.
    split; [|exact IH2].
    apply Forall_app. split; [exact Hd1|]. constructor; [lra|exact IH1].
  - apply Forall_app in Hall as [Hbelow _]. now apply IH.
Qed.

Lemma Selects_saved_work memory_budget window m plan :
  Selects memory_budget window m plan ->
  forall s, s <= saved_work_after s plan.
Proof.
  Selects_induction;
    intros s; try apply IH.
  - simpl. lra.
  - simpl. unfold apply_saved_work at 1; simpl.
    specialize (IH (s - desirablility worst)). lra.
  - rewrite saved_work_after_app. simpl.
    pose proof (delete_operations_saved_work deleted s) as Hd.
    set (s1 := saved_work_after s (delete_operations deleted)) in *.
    unfold apply_saved_work at 1; simpl.
    specialize (IH (s1 + desirablility best)). lra.
Qed.

Lemma created_cons (e : IndexEvaluation) (b : bool) (plan : list PlannedOperation) :
  created ((e, b) :: plan) = if b then e :: created plan else created plan.
Proof. now destruct b. Qed.

Lemma live_cost_cons (e : IndexEvaluation) (l : list IndexEvaluation) :
  memory_in_use (live_before (e :: l))
  == (if exists_ e then memory_cost e else 0) + memory_in_use (live_before l).
Proof. unfold memory_in_use. simpl. destruct (exists_ e); simpl; lra. Qed.

Lemma live_cost_app (l1 l2 : list IndexEvaluation) :
  memory_in_use (live_before (l1 ++ l2))
  == memory_in_use (live_before l1) + memory_in_use (live_before l2).
Proof. unfold memory_in_use. rewrite live_before_app. apply total_app. Qed.

Lemma live_cost_nonneg (l : list IndexEvaluation) :
  Forall (fun e => 0 <= memory_cost e) l -> 0 <= memory_in_use (live_before l).
Proof. intros H. apply total_nonneg, Forall_live_before, H. Qed.

(** The indexes created so far and the existing ones still in the window
    are all counted in [memory_consumption]; after a create this total is
    within the budget. *)
Lemma Selects_created_fit memory_budget window m plan :
  Selects memory_budget window m plan ->
  Forall (fun e => 0 <= memory_cost e) window ->
  memory_in_use (live_before window) <= m ->
  created plan = []
  \/ memory_in_use (created plan) + (m - memory_in_use (live_before window))
     <= memory_budget.
Proof.
  Selects_induction;
    intros Hall Hm.
  - now left.
  - apply Forall_cons in Hall as [Hw Hrest].
    rewrite live_cost_cons, Hex in Hm. rewrite created_cons, live_cost_cons, Hex.
    destruct IH as [IH|IH]; [assumption|lra|now left|right; lra].
  - apply Forall_cons in Hall as [Hw Hrest].
    rewrite live_cost_cons, Hex in Hm. rewrite live_cost_cons, Hex.
    destruct IH as [IH|IH]; [assumption|lra|now left|right; lra].
  - apply Forall_app in Hall as [Hbelow Hbest]. apply Forall_cons in Hbest as [Hbest _].
    rewrite live_cost_app, live_cost_cons, Hex in Hm.
    rewrite live_cost_app, live_cost_cons, Hex.
    change (memory_in_use (live_before [])) with 0 in *.
    destruct IH as [IH|IH]; [assumption|lra|now left|right; lra].
  - apply Forall_app in Hall as [Hdel Hall]. apply Forall_app in Hall as [Hbetween Hbest].
    apply Forall_cons in Hbest as [Hbest _].
    pose proof (delete_memory_spec deleted m) as Hdm.
    pose proof (live_cost_nonneg _ Hbetween) as Hnn.
    rewrite !live_cost_app, live_cost_cons, Hex in Hm.
    rewrite created_app, created_delete_operations, app_nil_l, created_cons.
    rewrite !live_cost_app, live_cost_cons, Hex.
    change (memory_in_use (live_before [])) with 0 in *.
    right. unfold memory_in_use at 1. simpl. fold (memory_in_use (created plan)).
    destruct IH as [IH|IH]; [assumption|lra| |lra].
    rewrite IH. unfold memory_in_use at 1. simpl. lra.
  - apply Forall_app in Hall as [Hbelow Hbest].
    rewrite live_cost_app, live_cost_cons, Hex in Hm.
    rewrite live_cost_app, live_cost_cons, Hex.
    change (memory_in_use (live_before [])) with 0 in *.
    destruct IH as [IH|IH]; [assumption|lra|now left|right; lra].
Qed.

(** ** The order of the operations *)

Lemma live_before_sublist (l : list IndexEvaluation) : live_before l `sublist_of` l.
Proof.
  induction l as [|e l IH]; simpl; [constructor|].
  destruct (exists_ e); now constructor.
Qed.

Lemma live_before_cons (e : IndexEvaluation) (l : list IndexEvaluation) :
  live_before (e :: l) = if exists_ e then e :: live_before l else live_before l.
Proof. reflexivity. Qed.

Lemma candidates_cons (e : IndexEvaluation) (l : list IndexEvaluation) :
  candidates (e :: l) = if exists_ e then candidates l else e :: candidates l.
Proof. unfold candidates. simpl. now destruct (exists_ e). Qed.

Lemma candidates_app (l1 l2 : list IndexEvaluation) :
  candidates (l1 ++ l2) = candidates l1 ++ candidates l2.
Proof. apply List.filter_app. Qed.

Lemma dropped_cons (e : IndexEvaluation) (b : bool) (plan : list PlannedOperation) :
  dropped ((e, b) :: plan) = if b then dropped plan else e :: dropped plan.
Proof. now destruct b. Qed.

(** Drops come in the order of the sorted vector, creates in the opposite
    order; a drop is of an existing index, a create of a proposed one, and
    no evaluation is the subject of two operations. *)
Lemma Selects_order memory_budget window m plan :
  Selects memory_budget window m plan ->
  dropped plan `sublist_of` live_before window
  /\ created plan `sublist_of` reverse (candidates window).
Proof.
  induction 1 as [m|worst rest m plan Hneg Hbest Hex Hsel [IHd IHc]
                 |worst rest m plan Hneg Hbest Hex Hsel [IHd IHc]
                 |below best m plan Hkeep Hex Hsel [IHd IHc]
                 |deleted between best m plan Hkeep Hex Hmem Hwork Hsel [IHd IHc]
                 |below best m plan Hkeep Hex Hsel [IHd IHc]].
  - split; constructor.
  - rewrite dropped_cons, created_cons, live_before_cons, candidates_cons, Hex.
    split; [now constructor|exact IHc].
  - rewrite live_before_cons, candidates_cons, Hex, reverse_cons.
    split; [exact IHd|now apply sublist_inserts_r].
  - rewrite live_before_app, candidates_app, live_before_cons, candidates_cons, Hex.
    change (candidates []) with (@nil IndexEvaluation). rewrite app_nil_r.
    split; [now apply sublist_inserts_r|exact IHc].
  - rewrite dropped_app, created_app, dropped_delete_operations, created_delete_operations.
    rewrite dropped_cons, created_cons, app_nil_l.
    rewrite !live_before_app, !candidates_app, live_before_cons, candidates_cons, Hex.
    split.
    + apply sublist_app; [reflexivity|]. now apply sublist_inserts_r.
    + rewrite !reverse_app. change (reverse (best :: candidates []))
        with ([best] ++ @nil IndexEvaluation). simpl.
      constructor. now apply sublist_inserts_r.
  - rewrite live_before_app, candidates_app, live_before_cons, candidates_cons, Hex.
    change (live_before []) with (@nil IndexEvaluation). rewrite app_nil_r.
    rewrite reverse_app. simpl. split; [exact IHd|now constructor].
Qed.

(** Evaluations of the same desirability leave the sort in input order. *)
Lemma sort_insert_stable k e (l : list IndexEvaluation) :
  List.filter (same_desirability k) (sort_insert e l)
  = List.filter (same_desirability k) (e :: l).
Proof.
  induction l as [|x l IH]; [reflexivity|].
  cbn [sort_insert]. destruct (evaluation_lt x e) eqn:E; [|reflexivity].
  unfold evaluation_lt in E. apply Qltb_lt in E.
  cbn [List.filter] in *. rewrite IH.
  destruct (same_desirability k x) eqn:Ex, (same_desirability k e) eqn:Ee;
    try reflexivity.
  unfold same_desirability in *. apply Qeq_bool_iff in Ex, Ee. lra.
Qed.

Lemma sort_stable k (l : list IndexEvaluation) :
  List.filter (same_desirability k) (sort l) = List.filter (same_desirability k) l.
Proof.
  induction l as [|e l IH]; [reflexivity|].
  cbn [sort foldr]. fold (sort l). rewrite sort_insert_stable.
  cbn [List.filter]. now rewrite IH.
Qed.

(** ** Plans applied to the list of live indexes *)

Lemma remove_one_permutation e (live : list IndexEvaluation) :
  e ∈ live -> live ≡ₚ e :: remove_one e live.
Proof.
  induction live as [|x live IH]; intros He; [inversion He|].
  simpl. destruct (decide (x = e)) as [->|Hne]; [reflexivity|].
  apply elem_of_cons in He as [->|He]; [contradiction|].
  rewrite (IH He) at 1. apply perm_swap.
Qed.

Lemma remove_one_total f e (live : list IndexEvaluation) :
  e ∈ live -> total f (remove_one e live) == total f live - f e.
Proof.
  intros He. rewrite (total_permutation f _ _ (remove_one_permutation e live He)).
  simpl. lra.
Qed.

Lemma dropped_remove_one e (rest live : list IndexEvaluation) :
  e :: rest ⊆+ live -> e ∈ live /\ rest ⊆+ remove_one e live.
Proof.
  intros H. apply submseteq_cons_l in H as (k & Hperm & Hsub).
  assert (He : e ∈ live) by (rewrite Hperm; left).
  split; [exact He|].
  rewrite (remove_one_permutation e live He) in Hperm.
  apply Permutation_cons_inv in Hperm. now rewrite Hperm.
Qed.

(** When every drop finds its index, the sums over the live indexes go the
    way [apply_memory] and [apply_saved_work] count. *)
Lemma configurations_memory bound (plan : list PlannedOperation) :
  forall (live : list IndexEvaluation) t,
    dropped plan ⊆+ live ->
    memory_in_use live == t ->
    Forall (fun used => used <= bound) (memory_trace t plan) ->
    Forall (fun live' => memory_in_use live' <= bound) (configurations live plan)
    /\ memory_in_use (live_after live plan) == memory_after t plan.
Proof.
  unfold memory_in_use.
  induction plan as [|[e b] plan IH]; intros live t Hsub Ht Hall.
  - split; [constructor|exact Ht].
  - simpl in Hall. apply Forall_cons in Hall as [Hp Hall].
    rewrite dropped_cons in Hsub. unfold apply_memory in Hp, Hall. simpl in Hp, Hall.
    cbn [configurations live_after memory_after fold_left].
    unfold apply_operation at 1 2 4, apply_memory at 1. cbn [fst snd].
    destruct b.
    + destruct (IH (mark_existing e :: live) (t + memory_cost e)) as [IH1 IH2];
        [now apply submseteq_cons|simpl; lra|exact Hall|].
      split; [constructor; [simpl; lra|exact IH1]|exact IH2].
    + apply dropped_remove_one in Hsub as [He Hsub].
      pose proof (remove_one_total memory_cost e live He) as Hrm.
      destruct (IH (remove_one e live) (t - memory_cost e)) as [IH1 IH2];
        [exact Hsub|lra|exact Hall|].
      split; [constructor; [lra|exact IH1]|exact IH2].
Qed.

Lemma live_after_saved_work (plan : list PlannedOperation) :
  forall (live : list IndexEvaluation) s,
    dropped plan ⊆+ live ->
    saved_work live == s ->
    saved_work (live_after live plan) == saved_work_after s plan.
Proof.
  unfold saved_work.
  induction plan as [|[e b] plan IH]; intros live s Hsub Hs; [exact Hs|].
  rewrite dropped_cons in Hsub.
  cbn [live_after saved_work_after fold_left].
  unfold apply_operation at 2, apply_saved_work at 2. cbn [fst snd].
  destruct b.
  - apply IH; [now apply submseteq_cons|simpl; lra].
  - apply dropped_remove_one in Hsub as [He Hsub].
    pose proof (remove_one_total desirablility e live He) as Hrm.
    apply IH; [exact Hsub|lra].
Qed.

Lemma select_plan_dropped_live evaluations memory_budget :
  dropped (select_plan evaluations memory_budget) ⊆+ live_before evaluations.
Proof.
  destruct (Selects_order _ _ _ _ (select_plan_Selects evaluations memory_budget))
    as [Hd _].
  rewrite <- (live_before_permutation _ _ (sort_permutation evaluations)).
  now apply sublist_submseteq.
Qed.

(** ** What a pass leaves behind *)

Lemma ascending_app_l (l1 l2 : list IndexEvaluation) :
  ascending (l1 ++ l2) -> ascending l1.
Proof.
  intros H i j a b Hij Ha Hb.
  apply (H i j a b Hij); apply lookup_app_l_Some; assumption.
Qed.

Lemma ascending_app_r (l1 l2 : list IndexEvaluation) :
  ascending (l1 ++ l2) -> ascending l2.
Proof.
  intros H i j a b Hij Ha Hb.
  apply (H (length l1 + i)%nat (length l1 + j)%nat a b); [lia| |];
    rewrite lookup_app_r by lia.
  - now replace (length l1 + i - length l1)%nat with i by lia.
  - now replace (length l1 + j - length l1)%nat with j by lia.
Qed.

Lemma ascending_hd_last (below : list IndexEvaluation) best :
  ascending (below ++ [best]) ->
  desirablility (hd best below) <= desirablility best.
Proof.
  destruct below as [|worst below]; simpl; intros H; [lra|].
  apply (H 0%nat (S (length below)) worst best); [lia|reflexivity|].
  simpl. rewrite lookup_app_r by lia.
  now replace (length below - length below)%nat with 0%nat by lia.
Qed.

(** On a sorted window the loop drops every existing index of negative
    desirability and creates none. *)
Lemma Selects_negative memory_budget window m plan :
  Selects memory_budget window m plan ->
  ascending window ->
  (forall e, e ∈ window -> exists_ e = true -> desirablility e < 0 -> e ∈ dropped plan)
  /\ (forall e, e ∈ created plan -> 0 <= desirablility e).
Proof.
  Selects_induction;
    intros Hasc.
  - split; intros e He; inversion He.
  - apply ascending_cons in Hasc as [_ Hasc]. destruct (IH Hasc) as [IH1 IH2].
    rewrite dropped_cons, created_cons. split; [|exact IH2].
    intros e He Hee Hde. apply elem_of_cons in He as [->|He]; [left|right; auto].
  - apply ascending_cons in Hasc as [_ Hasc]. destruct (IH Hasc) as [IH1 IH2].
    split; [|exact IH2].
    intros e He Hee Hde. apply elem_of_cons in He as [->|He]; [congruence|auto].
  - pose proof (ascending_hd_last _ _ Hasc) as Hhd.
    apply ascending_app_l in Hasc. destruct (IH Hasc) as [IH1 IH2].
    split; [|exact IH2].
    intros e He Hee Hde. apply elem_of_app in He as [He|He]; [auto|].
    apply list_elem_of_singleton in He as ->. lra.
  - assert (Hhd : desirablility (hd best (deleted ++ between)) <= desirablility best)
      by (apply ascending_hd_last; now rewrite <- app_assoc).
    apply ascending_app_r, ascending_app_l in Hasc. destruct (IH Hasc) as [IH1 IH2].
    rewrite dropped_app, created_app, dropped_delete_operations, created_delete_operations.
    rewrite dropped_cons, created_cons, app_nil_l. split.
    + intros e He Hee Hde. apply elem_of_app. apply elem_of_app in He as [He|He].
      * left. unfold live_before. apply list_elem_of_In, List.filter_In.
        split; [now apply list_elem_of_In|exact Hee].
      * apply elem_of_app in He as [He|He]; [right; auto|].
        apply list_elem_of_singleton in He as ->. congruence.
    + intros e He. apply elem_of_cons in He as [->|He]; [lra|auto].
  - apply ascending_app_l in Hasc. destruct (IH Hasc) as [IH1 IH2].
    split; [|exact IH2].
    intros e He Hee Hde. apply elem_of_app in He as [He|He]; [auto|].
    apply list_elem_of_singleton in He as ->. congruence.
Qed.

(** Nothing is planned when every index exists and none has negative
    desirability. *)
Lemma Selects_settled memory_budget window m plan :
  Selects memory_budget window m plan ->
  Forall (fun e => exists_ e = true /\ 0 <= desirablility e) window ->
  plan = [].
Proof.
  Selects_induction;
    intros Hall.
  - reflexivity.
  - apply Forall_cons in Hall as [[_ Hw] _]. lra.
  - apply Forall_cons in Hall as [[_ Hw] _]. lra.
  - apply Forall_app in Hall as [Hbelow _]. auto.
  - apply Forall_app in Hall as [_ Hall]. apply Forall_app in Hall as [_ Hall].
    apply Forall_cons in Hall as [[Hb _] _]. congruence.
  - apply Forall_app in Hall as [_ Hall].
    apply Forall_cons in Hall as [[Hb _] _]. congruence.
Qed.

Lemma select_plan_settled evaluations memory_budget :
  Forall (fun e => exists_ e = true /\ 0 <= desirablility e) evaluations ->
  select_plan evaluations memory_budget = [].
Proof.
  intros Hall. eapply Selects_settled; [apply select_plan_Selects|].
  now rewrite sort_permutation.
Qed.

Lemma configuration_after_elem evaluations plan e :
  e ∈ configuration_after evaluations plan ->
  (e ∈ evaluations /\ exists_ e = true /\ e ∉ dropped plan)
  \/ (exists e', e' ∈ created plan /\ e = mark_existing e')
  \/ (e ∈ evaluations /\ exists_ e = false).
Proof.
  unfold configuration_after. intros H.
  apply list_elem_of_omap in H as (e0 & He0 & H).
  destruct (exists_ e0) eqn:Ee.
  - case_bool_decide; [discriminate|]. injection H as <-. left. auto.
  - case_bool_decide; injection H as <-.
    + right. left. eauto.
    + right. right. auto.
Qed.

End SelectorFacts.

(** * The selector against its specification *)

Module SelectorClaims.
Import IndexSelector Configuration Invalidation SelectorScenarios SelectorFacts.
Local Open Scope Q_scope.

Example forced_swap_operations :
  select_indices forced_swap 80
  = [ {| op_table_name := "t"; op_column_id := 2%N; create := false |};
      {| op_table_name := "t"; op_column_id := 1%N; create := true |} ].
Proof. vm_compute. reflexivity. Qed.

Example unprofitable_swap_rejected :
  select_indices
    [evaluation 2 GroupKey true 12000000 60; evaluation 1 GroupKey false 9990000 50] 80
  = [].
Proof. vm_compute. reflexivity. Qed.





(** C3, as stated, fails: the first pass sacrifices an index for the best
    candidate and steps over a small candidate below it; run again on the
    resulting configuration, the selector creates that candidate. *)
Lemma idempotence_counterexample :
  select_indices overlooked 6
  = [ {| op_table_name := "t"; op_column_id := 1%N; create := false |};
      {| op_table_name := "t"; op_column_id := 2%N; create := true |} ]
  /\ configuration_after overlooked (select_plan overlooked 6)
     = [evaluation 0 GroupKey false 1 1; evaluation 2 GroupKey true 10 5]
  /\ select_indices (configuration_after overlooked (select_plan overlooked 6)) 6
     = [ {| op_table_name := "t"; op_column_id := 0%N; create := true |} ].
Proof. repeat split; vm_compute; reflexivity. Qed.

(** C3 (amended).  If the first pass leaves no candidate without an index,
    that is, every choice of the configuration it produces exists, then a
    second call on that configuration with the same budget returns no
    operation. *)
Theorem idempotence evaluations memory_budget :
  Forall (fun e => exists_ e = true)
    (configuration_after evaluations (select_plan evaluations memory_budget)) ->
  select_indices
    (configuration_after evaluations (select_plan evaluations memory_budget))
    memory_budget = [].
Proof.
  intros Hall. unfold select_indices. rewrite select_plan_settled; [reflexivity|].
  destruct (Selects_negative _ _ _ _ (select_plan_Selects evaluations memory_budget)
              (sort_ascending evaluations)) as [Hneg Hpos].
  apply Forall_forall. intros e He. split; [now apply (proj1 (Forall_forall _ _) Hall)|].
  pose proof (proj1 (Forall_forall _ _) Hall e He) as Hex.
  apply configuration_after_elem in He as [(Hin & _ & Hnd)|[(e' & Hc & ->)|(_ & Hno)]].
  - destruct (Qlt_le_dec (desirablility e) 0) as [Hlt|Hle]; [|exact Hle].
    exfalso. apply Hnd, Hneg; [|exact Hex|exact Hlt]. now rewrite sort_permutation.
  - simpl. now apply Hpos.
  - congruence.
Qed.

Lemma idempotence_witness :
  select_indices (configuration_after forced_swap (select_plan forced_swap 80)) 80 = [].
Proof.
  apply (idempotence forced_swap 80).
  vm_compute. repeat constructor.
Defined.






Example competing_under_budget :
  select_indices (competing 40) 50
  = [ {| op_table_name := "t"; op_column_id := 1%N; create := true |} ]
  /\ created (select_plan (competing 40) 50) = [evaluation 1 GroupKey false 5 40].
Proof. split; vm_compute; reflexivity. Qed.

End SelectorClaims.

(** * The evaluator against its specification *)

Module EvaluatorClaims.
Import IndexTuning Workload WorkloadScenarios.
Local Open Scope Q_scope.

Section Aggregation.
Context (storage : Storage).

Lemma aggregate_saved_work_fold records s (m : gmap ColumnRef Q) :
  snd (fold_left (aggregate_step storage) records (s, m))
  = fold_left (fun m r => _process_access_record storage r m) records m.
Proof.
  revert s m. induction records as [|r records IH]; intros s m; [reflexivity|].
  simpl. unfold aggregate_step at 2. simpl. apply IH.
Qed.

Lemma process_access_record_work r (m : gmap ColumnRef Q) c :
  work_of (_process_access_record storage r m) c
  == work_of m c + (if bool_decide (column_ref r = c) then unscanned_work storage c r else 0).
Proof.
  unfold work_of, _process_access_record. case_bool_decide as Hc.
  - subst c. unfold unscanned_work, record_saved_work.
    destruct (m !! column_ref r); rewrite lookup_insert_eq; lra.
  - destruct (m !! column_ref r); rewrite lookup_insert_ne by exact Hc; lra.
Qed.

Lemma process_access_record_absent r (m : gmap ColumnRef Q) c :
  column_ref r <> c -> _process_access_record storage r m !! c = m !! c.
Proof.
  intros Hc. unfold _process_access_record.
  destruct (m !! column_ref r); now rewrite lookup_insert_ne.
Qed.

Lemma fold_process_work records (m : gmap ColumnRef Q) c :
  work_of (fold_left (fun m r => _process_access_record storage r m) records m) c
  == work_of m c + sum_of (unscanned_work storage c) (matching c records).
Proof.
  revert m. induction records as [|r records IH]; intros m; simpl.
  - unfold sum_of. simpl. lra.
  - rewrite IH, process_access_record_work. unfold sum_of.
    case_bool_decide; simpl; lra.
Qed.

Lemma fold_process_absent records (m : gmap ColumnRef Q) c :
  matching c records = [] ->
  fold_left (fun m r => _process_access_record storage r m) records m !! c = m !! c.
Proof.
  revert m. induction records as [|r records IH]; intros m; simpl; [reflexivity|].
  case_bool_decide as Hc; [discriminate|]. intros Hnone.
  rewrite IH by exact Hnone. now apply process_access_record_absent.
Qed.

Lemma unscanned_work_double c r :
  unscanned_work storage c (double_frequency r) == 2 * unscanned_work storage c r.
Proof.
  unfold unscanned_work, double_frequency. simpl.
  rewrite N2Z.inj_mul, inject_Z_mult. change (inject_Z (Z.of_N 2)) with 2. lra.
Qed.

Lemma matching_double c records :
  matching c (double_matching c records) = map double_frequency (matching c records).
Proof.
  induction records as [|r records IH]; [reflexivity|]. simpl.
  destruct (bool_decide (column_ref r = c)) eqn:E; simpl; rewrite E; simpl; now rewrite IH.
Qed.

Lemma sum_of_double c records :
  sum_of (unscanned_work storage c) (map double_frequency records)
  == 2 * sum_of (unscanned_work storage c) records.
Proof.
  unfold sum_of. induction records as [|r records IH]; simpl; [lra|].
  rewrite IH, unscanned_work_double. lra.
Qed.

Lemma aggregated_saved_work_sum records choice :
  aggregated_saved_work storage records choice
  == sum_of (unscanned_work storage (choice_column_ref choice))
       (matching (choice_column_ref choice) records).
Proof.
  unfold aggregated_saved_work, _aggregate_access_records, _get_saved_work.
  rewrite aggregate_saved_work_fold.
  pose proof (fold_process_work records ∅ (choice_column_ref choice)) as H.
  unfold work_of in H. rewrite lookup_empty in H. rewrite H. lra.
Qed.

End Aggregation.


Example single_beneficial_index :
  aggregated_saved_work (sample_storage 9 1 9)
    [make_access_record "t" 0 10 Equals (Int32 4)]
    (new_index_choice (column 0) false) = 80.
Proof. vm_compute. reflexivity. Qed.


(** *** The predicted memory cost *)

(** C5, as stated, fails: 3 distinct values in 4 chunks give 0 distinct
    values per chunk, not 1. *)
Lemma predicted_memory_cost_counterexample :
  _predict_memory_cost (sample_storage 10 4 3) offsets_and_values
    (proposed 0) = Some 32%N
  /\ clamped_memory_cost (sample_storage 10 4 3) offsets_and_values
       (proposed 0) = 64%N.
Proof. split; vm_compute; reflexivity. Qed.

(** C5 (amended).  With at least one chunk, the predicted memory cost of a
    choice is the model's value for one chunk times the chunk count (in
    64-bit unsigned arithmetic), where the rows and the distinct values of
    a chunk are the integer quotients, rounded down, of the table's counts
    by the chunk count; fewer distinct values than chunks give 0 distinct
    values per chunk. *)
Theorem predicted_memory_cost storage predict_memory_consumption index_evaluation :
  let table := table_name (choice_column_ref index_evaluation) in
  let distinct_value_count :=
    column_distinct_count storage table (first_column (choice_column_ref index_evaluation)) in
  let value_bytes :=
    fold_left (fun bytes column_id => wrap64 (bytes + column_value_bytes storage table column_id))
      (column_ids (choice_column_ref index_evaluation)) 0%N in
  let row_count := table_row_count storage table in
  let chunk_count := table_chunk_count storage table in
  chunk_count <> 0%N ->
  exists chunk_rows chunk_distinct_values : N,
    _predict_memory_cost storage predict_memory_consumption index_evaluation
    = Some ((predict_memory_consumption (type index_evaluation) chunk_rows
               chunk_distinct_values value_bytes * chunk_count) mod 2 ^ 64)%N
    /\ (chunk_rows * chunk_count <= row_count < (chunk_rows + 1) * chunk_count)%N
    /\ (chunk_distinct_values * chunk_count <= distinct_value_count
        < (chunk_distinct_values + 1) * chunk_count)%N
    /\ ((distinct_value_count < chunk_count)%N -> chunk_distinct_values = 0%N).
Proof.
  intros table distinct_value_count value_bytes row_count chunk_count Hchunks.
  exists (row_count / chunk_count)%N, (distinct_value_count / chunk_count)%N.
  split; [|split; [|split]].
  - unfold _predict_memory_cost. fold table. fold chunk_count.
    destruct (N.eqb_spec chunk_count 0) as [H0|_]; [contradiction|]. reflexivity.
  - split.
    + rewrite N.mul_comm. apply N.Div0.mul_div_le.
    + rewrite N.mul_comm, N.add_1_r. now apply N.mul_succ_div_gt.
  - split.
    + rewrite N.mul_comm. apply N.Div0.mul_div_le.
    + rewrite N.mul_comm, N.add_1_r. now apply N.mul_succ_div_gt.
  - intros Hlt. now apply N.div_small.
Qed.

Lemma predicted_memory_cost_witness :
  exists chunk_rows chunk_distinct_values : N,
    _predict_memory_cost (sample_storage 10 4 3) offsets_and_values
      (proposed 0)
    = Some ((offsets_and_values GroupKey chunk_rows chunk_distinct_values 4 * 4) mod 2 ^ 64)%N
    /\ (chunk_rows * 4 <= 10 < (chunk_rows + 1) * 4)%N
    /\ (chunk_distinct_values * 4 <= 3 < (chunk_distinct_values + 1) * 4)%N
    /\ ((3 < 4)%N -> chunk_distinct_values = 0%N).
Proof.
  apply (predicted_memory_cost (sample_storage 10 4 3) offsets_and_values
           (proposed 0)).
  vm_compute. discriminate.
Defined.

End EvaluatorClaims.

(** * The plan walkers and the cache against their specification *)

Module WalkerClaims.
Import IndexTuning Workload WorkloadScenarios.
Local Open Scope N_scope.

Example inspect_lqp_operator_test build :
  _inspect_lqp_operator build literal_predicate 1 []
  = Returns [make_access_record "t" 0 1 Equals (Int32 4)].
Proof. destruct build; vm_compute; reflexivity. Qed.

Example inspect_pqp_operator_test build :
  _inspect_pqp_operator build plain_scan 1 []
  = Returns [make_access_record "t" 0 1 Equals (Int32 4)].
Proof. destruct build; vm_compute; reflexivity. Qed.

(** C6, as stated, fails: in a release build the assertion is compiled out
    and the scan over a [Validate] is passed over without a record and
    without an error; the older walker records such a scan. *)
Lemma mvcc_rejection_counterexample :
  _inspect_pqp_operator Release mvcc_scan 1 [] = Returns []
  /\ OperatorEvaluator._inspect_operator 1%nat mvcc_scan 1 []
     = Some (Returns [OperatorEvaluator.make_access_record "t" 0 1 Equals (Int32 4)]).
Proof. split; vm_compute; reflexivity. Qed.

(** C6 (amended).  When [_inspect_pqp_operator] comes to a [TableScan]
    whose left input is a [Validate], a debug build fails with the logic
    error of the assertion, which leaves the walker; a release build
    records nothing for the scan and goes on with the rest of the queue. *)
Theorem mvcc_rejection query_frequency column_id cond parameter
    validate_left validate_right scan_right queue records :
  let scan :=
    Operator (TableScan column_id cond parameter)
      (Some (Operator Validate validate_left validate_right)) scan_right in
  pqp_loop Debug query_frequency (scan :: queue) records
  = Throws (logic_error mvcc_message)
  /\ pqp_loop Release query_frequency (scan :: queue) records
     = pqp_loop Release query_frequency queue records
  /\ _inspect_pqp_operator Debug scan query_frequency records
     = Throws (logic_error mvcc_message)
  /\ _inspect_pqp_operator Release scan query_frequency records = Returns records.
Proof.
  intros scan. unfold _inspect_pqp_operator, scan.
  repeat split; simp pqp_loop; reflexivity.
Qed.

(** C8.  The walker is to pass over a predicate whose right side is not a
    literal without a record and without an error.  It does not: for a
    predicate on a stored table's column whose right side is another
    column, taking the literal out of the right side throws, in either
    build, and the exception leaves the walker. *)
Theorem non_literal_predicate_throws :
  _inspect_lqp_operator Debug column_comparison 1 [] = Throws bad_get
  /\ _inspect_lqp_operator Release column_comparison 1 [] = Throws bad_get.
Proof. split; vm_compute; reflexivity. Qed.

(** What the walker does with a predicate in general.  When the column
    reference does not lead to a stored table it records nothing, raises
    nothing and goes on with the inputs of the node, whatever the right
    side is; when the reference leads to a column of a stored table and
    the right side is not a literal it ends with [bad_get]. *)
Lemma inspect_predicate_cases build query_frequency lqp_ref cond value
    left_input right_input queue records :
  let node := LQPNode (PredicateNode lqp_ref cond value) left_input right_input in
  (not_rooted_in_stored_table lqp_ref ->
   lqp_loop build query_frequency (node :: queue) records
   = lqp_loop build query_frequency (queue ++ lqp_inputs node) records)
  /\ (forall original column_id,
        original_node lqp_ref = Some original ->
        original_type original = StoredTableType ->
        found_output_column_id lqp_ref = Some column_id ->
        is_literal value = false ->
        lqp_loop build query_frequency (node :: queue) records = Throws bad_get).
Proof.
  intros node. split.
  - intros Hroot. unfold node. simp lqp_loop.
    unfold inspect_lqp_node, inspect_predicate, not_rooted_in_stored_table in *.
    destruct (original_node lqp_ref) as [original|]; [|reflexivity].
    destruct (original_type original); try reflexivity. contradiction.
  - intros original column_id Horig Htype Hfound Hlit. unfold node. simp lqp_loop.
    unfold inspect_lqp_node, inspect_predicate.
    rewrite Horig, Htype, Hfound. simpl.
    destruct build, value; try discriminate; reflexivity.
Qed.

(** A predicate without a column reference is passed over, also when its
    right side is a column. *)
Example unresolved_predicate_passed_over build :
  _inspect_lqp_operator build
    (LQPNode (PredicateNode {| original_node := None; found_output_column_id := None |}
                Equals (ColumnParameter 1))
       (Some (LQPNode (StoredTableNode "t") None None)) None) 1 []
  = Returns [].
Proof. destruct build; vm_compute; reflexivity. Qed.

(** The walker over physical plans takes the literal out of the scan's
    right side in the same way. *)
Example non_literal_scan_throws build :
  _inspect_pqp_operator build
    (Operator (TableScan 0 Equals (ColumnParameter 1)) (Some (get_table "t")) None) 1 []
  = Throws bad_get.
Proof. destruct build; vm_compute; reflexivity. Qed.

(** *** No workload *)

Lemma add_table_indexes_existing storage table (choices : list IndexChoice)
    (candidates : gset ColumnRef) :
  Forall (fun c => exists_ c = true) choices -> candidates = ∅ ->
  Forall (fun c => exists_ c = true)
    (fst (add_table_indexes storage (choices, candidates) table))
  /\ snd (add_table_indexes storage (choices, candidates) table) = ∅.
Proof.
  unfold add_table_indexes.
  revert choices candidates.
  induction (table_indexes storage table) as [|index_info infos IH];
    intros choices candidates Hall Hnone; [split; assumption|].
  simpl. apply IH.
  - apply Forall_app. split; [exact Hall|]. now repeat constructor.
  - subst candidates. apply empty_difference_L.
Qed.

Lemma add_existing_indexes_existing storage :
  Forall (fun c => exists_ c = true) (fst (_add_existing_indexes storage [] ∅))
  /\ snd (_add_existing_indexes storage [] ∅) = ∅.
Proof.
  unfold _add_existing_indexes.
  assert (Hgen : forall tables (choices : list IndexChoice) (candidates : gset ColumnRef),
    Forall (fun c => exists_ c = true) choices -> candidates = ∅ ->
    Forall (fun c => exists_ c = true)
      (fst (fold_left (add_table_indexes storage) tables (choices, candidates)))
    /\ snd (fold_left (add_table_indexes storage) tables (choices, candidates)) = ∅).
  { induction tables as [|table tables IH]; intros choices candidates Hall Hnone;
      [now split|].
    simpl.
    destruct (add_table_indexes_existing storage table choices candidates Hall Hnone)
      as [H1 H2].
    destruct (add_table_indexes storage (choices, candidates) table) as [choices' candidates'].
    now apply IH. }
  now apply Hgen.
Qed.

Lemma evaluate_choices_existing storage predict_memory_consumption
    (choices : list IndexChoice) :
  Forall (fun c => exists_ c = true) choices ->
  exists evaluated,
    evaluate_choices storage predict_memory_consumption ∅ choices = Returns evaluated
    /\ Forall (fun c => exists_ c = true /\ saved_work c = 0%Q) evaluated.
Proof.
  induction 1 as [|c choices Hc Hall (evaluated & Heval & Hevaluated)].
  - exists []. now split.
  - simpl. unfold evaluate_choice at 1. rewrite Hc. simpl. rewrite Heval. simpl.
    eexists. split; [reflexivity|]. constructor; [|exact Hevaluated].
    split; [reflexivity|]. unfold _get_saved_work. simpl. now rewrite lookup_empty.
Qed.

Lemma evaluation_of_choice_settled (choices : list IndexChoice) :
  Forall (fun c => exists_ c = true /\ saved_work c = 0%Q) choices ->
  Forall (fun e => IndexSelector.exists_ e = true
                   /\ (0 <= IndexSelector.desirablility e)%Q)
    (map Tuner.evaluation_of_choice choices).
Proof.
  intros Hall. apply Forall_map. eapply Forall_impl; [exact Hall|].
  intros c [Hc Hw]. simpl. rewrite Hw. split; [exact Hc|]. apply Qle_refl.
Qed.



Example empty_workload :
  Tuner.tuning_pass Release (sample_storage 9 1 9)
    offsets_and_values (GDFSCache []) 100%Q
  = ([warning_empty_cache], Returns []).
Proof. vm_compute. reflexivity. Qed.

(** The older evaluator, by contrast, fails its assertion on a cache that
    is not a GDFS cache, and logs nothing for one without entries. *)
Example older_cache_inspection fuel :
  OperatorEvaluator._inspect_query_cache fuel OperatorEvaluator.OtherPlanCache
  = Some (Throws (logic_error "Expected GDFS Cache"))
  /\ OperatorEvaluator._inspect_query_cache fuel (OperatorEvaluator.GDFSPlanCache [])
     = Some (Returns []).
Proof. split; reflexivity. Qed.

End WalkerClaims.

(** * Further properties of the selector *)

Module SelectorExtras.
Import IndexSelector Configuration SelectorOutcome SelectorScenarios SelectorFacts.
Local Open Scope Q_scope.

Lemma plan_subjects (plan : list PlannedOperation) :
  map fst plan ≡ₚ dropped plan ++ created plan.
Proof.
  induction plan as [|[e b] plan IH]; [reflexivity|].
  rewrite dropped_cons, created_cons. destruct b; simpl.
  - rewrite IH. apply Permutation_middle.
  - now rewrite IH.
Qed.

Lemma live_and_candidates (l : list IndexEvaluation) :
  l ≡ₚ live_before l ++ candidates l.
Proof.
  induction l as [|e l IH]; [reflexivity|].
  rewrite live_before_cons, candidates_cons. destruct (exists_ e); simpl.
  - now rewrite <- IH.
  - rewrite <- Permutation_middle. now rewrite <- IH.
Qed.

(** X1.  Every evaluation is the subject of at most one planned
    operation: the evaluations operated on are a sub-multiset of the
    input.  So [select_indices] never returns more operations than it was
    given evaluations, and the capacity reserved for [_operations] is
    enough. *)
Theorem operations_within_reserve evaluations memory_budget :
  map fst (select_plan evaluations memory_budget) ⊆+ evaluations
  /\ (length (select_indices evaluations memory_budget) <= length evaluations)%nat.
Proof.
  assert (Hsub : map fst (select_plan evaluations memory_budget) ⊆+ evaluations).
  { destruct (Selects_order _ _ _ _ (select_plan_Selects evaluations memory_budget))
      as [Hd Hc].
    rewrite plan_subjects. rewrite <- (sort_permutation evaluations) at 3.
    rewrite (live_and_candidates (sort evaluations)).
    apply submseteq_app; [now apply sublist_submseteq|].
    rewrite <- (reverse_Permutation (candidates (sort evaluations))).
    now apply sublist_submseteq. }
  split; [exact Hsub|].
  unfold select_indices. rewrite length_map.
  apply submseteq_length in Hsub. now rewrite length_map in Hsub.
Qed.

(** X2.  Whatever the budget, [select_indices] drops every existing index
    of negative desirability, and creates no index of negative
    desirability. *)
Theorem negative_desirability evaluations memory_budget :
  (forall e, e ∈ evaluations -> exists_ e = true -> desirablility e < 0 ->
     e ∈ dropped (select_plan evaluations memory_budget))
  /\ (forall e, e ∈ created (select_plan evaluations memory_budget) ->
        0 <= desirablility e).
Proof.
  destruct (Selects_negative _ _ _ _ (select_plan_Selects evaluations memory_budget)
              (sort_ascending evaluations)) as [Hneg Hpos].
  split; [|exact Hpos].
  intros e He. apply Hneg. now rewrite sort_permutation.
Qed.

Lemma memory_trace_length t (plan : list PlannedOperation) :
  length (memory_trace t plan) = length plan.
Proof. revert t. induction plan as [|p plan IH]; intros t; simpl; [|rewrite IH]; reflexivity. Qed.

Lemma delete_operations_drops (deleted : list IndexEvaluation) i e b :
  delete_operations deleted !! i = Some (e, b) -> b = false.
Proof.
  unfold delete_operations. rewrite list_lookup_fmap.
  destruct (List.filter exists_ deleted !! i); simpl; [|discriminate].
  now intros [= _ <-].
Qed.

Lemma delete_operations_length (deleted : list IndexEvaluation) :
  length (delete_operations deleted) = length (live_before deleted).
Proof. unfold delete_operations. now rewrite length_map. Qed.

Lemma delete_operations_memory_after (deleted : list IndexEvaluation) t :
  memory_after t (delete_operations deleted) == t - memory_in_use (live_before deleted).
Proof.
  revert t. unfold memory_in_use. induction deleted as [|e l IH]; intros t.
  - simpl. lra.
  - rewrite delete_operations_cons. simpl. destruct (exists_ e); [|apply IH].
    simpl. unfold memory_after in *. rewrite IH. unfold apply_memory; simpl. lra.
Qed.

Lemma Selects_create_fits memory_budget window m plan :
  Selects memory_budget window m plan ->
  forall t, t == m ->
  forall i e x, plan !! i = Some (e, true) -> memory_trace t plan !! i = Some x ->
    x <= memory_budget.
Proof.
  Selects_induction; intros t Ht i e x Hp Hx.
  - rewrite lookup_nil in Hp. discriminate.
  - destruct i as [|i]; [discriminate|]. simpl in Hp, Hx.
    apply (IH (apply_memory t (worst, false))) with i e; try assumption.
    unfold apply_memory; simpl. lra.
  - now apply (IH t Ht i e).
  - now apply (IH t Ht i e).
  - rewrite memory_trace_app in Hx.
    destruct (Nat.lt_ge_cases i (length (delete_operations deleted))) as [Hlt|Hge].
    + rewrite lookup_app_l in Hp by exact Hlt.
      apply delete_operations_drops in Hp. discriminate.
    + rewrite lookup_app_r in Hp by exact Hge.
      rewrite lookup_app_r in Hx by (rewrite memory_trace_length; exact Hge).
      rewrite memory_trace_length in Hx.
      pose proof (delete_operations_memory_after deleted t) as Hd.
      pose proof (delete_memory_spec deleted m) as Hdm.
      set (t1 := memory_after t (delete_operations deleted)) in *.
      match type of Hp with _ !! ?n = _ => remember n as k eqn:Hk end.
      match type of Hx with _ !! ?n = _ => replace n with k in Hx by (subst k; reflexivity) end.
      clear Hk. destruct k as [|k].
      * simpl in Hx. injection Hx as <-. unfold apply_memory; simpl. lra.
      * simpl in Hp, Hx.
        apply (IH (apply_memory t1 (best, true))) with k e; try assumption.
        unfold apply_memory; simpl. lra.
  - now apply (IH t Ht i e).
Qed.

Lemma configurations_trace (plan : list PlannedOperation) :
  forall (live : list IndexEvaluation) t,
    dropped plan ⊆+ live ->
    memory_in_use live == t ->
    forall i live' x,
      configurations live plan !! i = Some live' ->
      memory_trace t plan !! i = Some x ->
      memory_in_use live' == x.
Proof.
  unfold memory_in_use.
  induction plan as [|[e b] plan IH]; intros live t Hsub Ht i live' x Hc Hx.
  - destruct i; discriminate.
  - rewrite dropped_cons in Hsub.
    cbn [configurations memory_trace] in Hc, Hx.
    assert (Hstep : total memory_cost (apply_operation live (e, b))
                    == apply_memory t (e, b)).
    { unfold apply_operation, apply_memory. cbn [fst snd]. destruct b.
      - simpl. lra.
      - apply dropped_remove_one in Hsub as [He _].
        rewrite (remove_one_total memory_cost e live He). lra. }
    destruct i as [|i].
    + simpl in Hc, Hx. injection Hc as <-. injection Hx as <-. exact Hstep.
    + simpl in Hc, Hx. eapply IH; [|exact Hstep|exact Hc|exact Hx].
      unfold apply_operation. cbn [fst snd]. destruct b.
      * now apply submseteq_cons.
      * now apply dropped_remove_one in Hsub as [_ Hsub].
Qed.



(** ** A budget that has room for everything *)

Lemma sacrifice_nothing required (l : list IndexEvaluation) s o :
  required <= o -> sacrifice required l s o = (s, o, 0%nat).
Proof.
  intros H. destruct l as [|e l]; [reflexivity|]. simpl.
  destruct (Qltb o required) eqn:E; [|reflexivity].
  apply Qltb_lt in E. lra.
Qed.

Lemma candidates_cost_cons (e : IndexEvaluation) (l : list IndexEvaluation) :
  memory_in_use (candidates (e :: l))
  == (if exists_ e then 0 else memory_cost e) + memory_in_use (candidates l).
Proof. rewrite candidates_cons. unfold memory_in_use. destruct (exists_ e); simpl; lra. Qed.

Lemma candidates_cost_app (l1 l2 : list IndexEvaluation) :
  memory_in_use (candidates (l1 ++ l2))
  == memory_in_use (candidates l1) + memory_in_use (candidates l2).
Proof. rewrite candidates_app. apply total_app. Qed.

Lemma candidates_cost_nonneg (l : list IndexEvaluation) :
  Forall (fun e => 0 <= memory_cost e) l -> 0 <= memory_in_use (candidates l).
Proof.
  intros H. apply total_nonneg. unfold candidates.
  induction H as [|e l He Hl IH]; simpl; [constructor|].
  destruct (exists_ e); simpl; [|constructor]; assumption.
Qed.

Lemma select_loop_ample memory_budget (n : nat) :
  forall window m,
    length window = n ->
    ascending window ->
    Forall (fun e => 0 <= memory_cost e) window ->
    m + memory_in_use (candidates window) <= memory_budget ->
    dropped (select_loop memory_budget window m) = List.filter drag window
    /\ created (select_loop memory_budget window m)
       = reverse (List.filter welcome window).
Proof.
  induction n as [n IH] using lt_wf_ind. intros window m Hn Hasc Hall Hm.
  destruct window as [|worst rest].
  { rewrite select_loop_equation_1. split; reflexivity. }
  rewrite select_loop_equation_2. cbv zeta.
  pose proof (window_split worst rest) as Hwin.
  pose proof (hd_removelast worst rest) as Hhd.
  set (best := List.last (worst :: rest) worst) in *.
  set (below := removelast (worst :: rest)) in *.
  assert (Hlen : length below = length rest) by apply removelast_cons_length.
  assert (Hle : desirablility worst <= desirablility best).
  { rewrite <- Hhd. apply ascending_hd_last. now rewrite <- Hwin. }
  assert (Hbelow : ascending below) by (rewrite Hwin in Hasc; now apply ascending_app_l in Hasc).
  assert (Hcosts : Forall (fun e => 0 <= memory_cost e) below /\ 0 <= memory_cost best).
  { rewrite Hwin in Hall. apply Forall_app in Hall as [H1 H2].
    apply Forall_cons in H2 as [H2 _]. now split. }
  destruct Hcosts as [Hcb Hcbest].
  assert (Helse : 0 <= desirablility best ->
    dropped
      (if exists_ best then select_loop memory_budget below m
       else
         let required_memory := memory_cost best + m - memory_budget in
         let found := sacrifice required_memory below 0 0 in
         if Qle_bool required_memory (snd (fst found))
            && Qle_bool (fst (fst found)) (desirablility best)
         then
           delete_operations (take (snd found) below)
             ++ (best, true)
             :: select_loop memory_budget (drop (snd found) below)
                  (delete_memory (take (snd found) below) m + memory_cost best)
         else select_loop memory_budget below m)
    = List.filter drag (worst :: rest)
    /\ created
      (if exists_ best then select_loop memory_budget below m
       else
         let required_memory := memory_cost best + m - memory_budget in
         let found := sacrifice required_memory below 0 0 in
         if Qle_bool required_memory (snd (fst found))
            && Qle_bool (fst (fst found)) (desirablility best)
         then
           delete_operations (take (snd found) below)
             ++ (best, true)
             :: select_loop memory_budget (drop (snd found) below)
                  (delete_memory (take (snd found) below) m + memory_cost best)
         else select_loop memory_budget below m)
    = reverse (List.filter welcome (worst :: rest))).
  { intros Hpos. rewrite Hwin, !List.filter_app, reverse_app.
    rewrite Hwin, candidates_cost_app, candidates_cost_cons in Hm.
    change (memory_in_use (candidates [])) with 0 in Hm.
    pose proof (candidates_cost_nonneg below Hcb) as Hnn.
    assert (Hdrag : drag best = false).
    { unfold drag. destruct (exists_ best); [|reflexivity]. simpl.
      apply Qltb_ge. exact Hpos. }
    assert (Hwelcome : welcome best = negb (exists_ best)).
    { unfold welcome. rewrite (proj2 (Qle_bool_iff _ _) Hpos). apply andb_true_r. }
    cbn [List.filter]. rewrite Hdrag, Hwelcome, app_nil_r.
    destruct (exists_ best) eqn:Eb.
    - simpl. apply (IH (length below)); try assumption; [simpl in Hn; lia|reflexivity|lra].
    - cbv zeta. rewrite sacrifice_nothing by lra. cbn [fst snd].
      assert (E1 : Qle_bool (memory_cost best + m - memory_budget) 0 = true)
        by (apply Qle_bool_iff; lra).
      assert (E2 : Qle_bool 0 (desirablility best) = true)
        by (apply Qle_bool_iff; exact Hpos).
      rewrite E1, E2. simpl. rewrite drop_0.
      rewrite dropped_cons, created_cons.
      destruct (IH (length below) ltac:(simpl in Hn; lia) below
                  (m + memory_cost best) eq_refl Hbelow Hcb ltac:(lra)) as [IH1 IH2].
      split; [exact IH1|]. now rewrite IH2. }
  destruct (Qltb (desirablility worst) 0) eqn:E1;
    [destruct (Qltb (desirablility best) (- desirablility worst)) eqn:E2|];
    cbn [andb].
  - apply Qltb_lt in E1. apply ascending_cons in Hasc as [_ Hasc].
    apply Forall_cons in Hall as [Hcw Hall].
    rewrite candidates_cost_cons in Hm.
    cbn [List.filter]. unfold drag at 1, welcome at 1.
    assert (Ew : Qltb (desirablility worst) 0 = true) by now apply Qltb_lt.
    assert (Ez : Qle_bool 0 (desirablility worst) = false).
    { destruct (Qle_bool 0 (desirablility worst)) eqn:E; [|reflexivity].
      apply Qle_bool_iff in E. lra. }
    rewrite Ew, Ez. destruct (exists_ worst) eqn:Ex; simpl.
    + rewrite dropped_cons, created_cons.
      destruct (IH (length rest) ltac:(simpl in Hn; lia) rest
                  (m - memory_cost worst) eq_refl Hasc Hall ltac:(lra)) as [IH1 IH2].
      split; [now rewrite IH1|exact IH2].
    + apply (IH (length rest)); try assumption; [simpl in Hn; lia|reflexivity|lra].
  - apply Qltb_lt in E1. apply Qltb_ge in E2. apply Helse. lra.
  - apply Qltb_ge in E1. apply Helse. lra.
Qed.



(** ** The order of the input *)

Lemma distinct_desirabilities_filter (l : list IndexEvaluation) :
  distinct_desirabilities l = true ->
  forall k, (length (List.filter (same_desirability k) l) <= 1)%nat.
Proof.
  induction l as [|e l IH]; intros H k; [simpl; lia|].
  simpl in H. apply andb_true_iff in H as [He Hl].
  cbn [List.filter]. destruct (same_desirability k e) eqn:Ee; [|now apply IH].
  assert (Hnone : List.filter (same_desirability k) l = []).
  { clear IH Hl. induction l as [|x l IHl]; [reflexivity|].
    simpl in He. apply andb_true_iff in He as [Hx He].
    cbn [List.filter]. destruct (same_desirability k x) eqn:Ex; [|now apply IHl].
    unfold same_desirability in *. apply Qeq_bool_iff in Ee, Ex.
    apply negb_true_iff in Hx.
    assert (Qeq_bool (desirablility e) (desirablility x) = true)
      by (apply Qeq_bool_iff; lra).
    congruence. }
  rewrite Hnone. simpl. lia.
Qed.

Lemma ascending_unique (l1 l2 : list IndexEvaluation) :
  l1 ≡ₚ l2 -> ascending l1 -> ascending l2 ->
  (forall k, (length (List.filter (same_desirability k) l1) <= 1)%nat) ->
  l1 = l2.
Proof.
  revert l2. induction l1 as [|a l1 IH]; intros l2 Hperm H1 H2 Hd.
  - now apply Permutation_nil_l in Hperm.
  - destruct l2 as [|b l2]; [now apply Permutation_nil_r in Hperm|].
    apply ascending_cons in H1 as [Ha H1]. apply ascending_cons in H2 as [Hb H2].
    assert (Hab : a = b).
    { assert (Hbin : b ∈ a :: l1) by (rewrite Hperm; left).
      apply elem_of_cons in Hbin as [->|Hbin]; [reflexivity|].
      assert (Hain : a ∈ b :: l2) by (rewrite <- Hperm; left).
      apply elem_of_cons in Hain as [->|Hain]; [reflexivity|].
      rewrite Forall_forall in Ha, Hb.
      pose proof (Ha b Hbin) as Hle1. pose proof (Hb a Hain) as Hle2.
      specialize (Hd (desirablility a)). cbn [List.filter] in Hd.
      unfold same_desirability at 1 in Hd.
      rewrite (proj2 (Qeq_bool_iff _ _) (Qeq_refl _)) in Hd.
      assert (Hbf : b ∈ List.filter (same_desirability (desirablility a)) l1).
      { apply list_elem_of_In, List.filter_In. split; [now apply list_elem_of_In|].
        unfold same_desirability. apply Qeq_bool_iff. lra. }
      destruct (List.filter (same_desirability (desirablility a)) l1);
        [inversion Hbf|simpl in Hd; lia]. }
    subst b. f_equal. apply Permutation_cons_inv in Hperm.
    apply IH; try assumption.
    intros k. specialize (Hd k). cbn [List.filter] in Hd.
    destruct (same_desirability k a); simpl in Hd; lia.
Qed.

Lemma sort_order_independent (l1 l2 : list IndexEvaluation) :
  l1 ≡ₚ l2 -> distinct_desirabilities l1 = true -> sort l1 = sort l2.
Proof.
  intros Hperm Hd. apply ascending_unique; try apply sort_ascending.
  - now rewrite !sort_permutation.
  - intros k. rewrite sort_stable. now apply distinct_desirabilities_filter.
Qed.

(** X5.  When no two evaluations have the same desirability, the
    operations do not depend on the order of the input vector. *)
Theorem order_independent evaluations evaluations' memory_budget :
  evaluations ≡ₚ evaluations' ->
  distinct_desirabilities evaluations = true ->
  select_indices evaluations memory_budget = select_indices evaluations' memory_budget.
Proof.
  intros Hperm Hd. unfold select_indices. rewrite !select_plan_loop.
  now rewrite (sort_order_independent _ _ Hperm Hd).
Qed.

Lemma order_independent_witness :
  select_indices forced_swap 80
  = select_indices
      [evaluation 1 GroupKey false 9990000 50; evaluation 2 GroupKey true 0 60] 80.
Proof.
  apply (order_independent forced_swap
           [evaluation 1 GroupKey false 9990000 50; evaluation 2 GroupKey true 0 60] 80).
  - apply perm_swap.
  - vm_compute. reflexivity.
Defined.

(** ** The number of turns of the loop *)

(** X6.  The main loop of [select_indices] ends after at most as many
    turns as there are evaluations: allowing it more turns changes nothing
    in the operations planned. *)
Theorem loop_ends_within_size evaluations memory_budget fuel :
  (length evaluations <= fuel)%nat ->
  select_at fuel (sort evaluations) memory_budget 0 (length (sort evaluations))
    (initial_memory_consumption (sort evaluations))
  = select_plan evaluations memory_budget.
Proof.
  intros Hfuel.
  assert (Hlen : length (sort evaluations) = length evaluations)
    by (apply Permutation_length, sort_permutation).
  rewrite select_plan_loop, select_at_window by lia.
  unfold range. now rewrite Nat.sub_0_r, drop_0, firstn_all.
Qed.

Lemma loop_ends_within_size_witness :
  select_at 7 (sort forced_swap) 80 0 (length (sort forced_swap))
    (initial_memory_consumption (sort forced_swap))
  = select_plan forced_swap 80.
Proof.
  apply (loop_ends_within_size forced_swap 80 7). simpl. lia.
Defined.

End SelectorExtras.

(** * Further properties of the plan walkers and the cache *)

Module WalkerExtras.
Import IndexTuning Workload WorkloadScenarios PlanShape.
Local Open Scope N_scope.

Lemma omap_cons_option_list {A B} (f : A -> option B) (x : A) (l : list A) :
  omap f (x :: l) = option_list (f x) ++ omap f l.
Proof. simpl. destruct (f x); reflexivity. Qed.

Lemma lqp_nodes_inputs (node : AbstractLQPNode) :
  lqp_nodes node = node :: flat_map lqp_nodes (lqp_inputs node).
Proof.
  destruct node as [p [l|] [r|]]; simpl; rewrite ?app_nil_r; reflexivity.
Qed.

Lemma inspect_readable build node query_frequency records :
  unreadable node = false ->
  inspect_lqp_node build node query_frequency records
  = Returns (records ++ option_list (node_record query_frequency node)).
Proof.
  destruct node as [[lqp_ref cond value| |] l r]; simpl; intros H;
    try (now rewrite app_nil_r).
  unfold inspect_predicate.
  destruct (original_node lqp_ref) as [original|];
    [|destruct value; now rewrite app_nil_r].
  destruct (is_stored_table (original_type original));
    [|destruct value, (found_output_column_id lqp_ref); now rewrite app_nil_r].
  simpl in H. apply negb_false_iff, andb_true_iff in H as [Hfound Hlit].
  apply bool_decide_eq_true in Hfound as [column_id Hfound].
  destruct value; try discriminate. rewrite Hfound.
  destruct build; reflexivity.
Qed.

Lemma inspect_unreadable build node query_frequency records :
  unreadable node = true ->
  exists e, inspect_lqp_node build node query_frequency records = Throws e.
Proof.
  destruct node as [[lqp_ref cond value| |] l r]; simpl; intros H; try discriminate.
  unfold inspect_predicate.
  destruct (original_node lqp_ref) as [original|]; [|discriminate].
  destruct (is_stored_table (original_type original)); [|discriminate].
  simpl in H. apply negb_true_iff, andb_false_iff in H.
  destruct (found_output_column_id lqp_ref) as [column_id|].
  - destruct H as [H|H]; [discriminate|]. 
    destruct value; try discriminate; destruct build; simpl; eauto.
  - destruct build; simpl; eauto.
Qed.

Lemma lqp_loop_records build query_frequency (n : nat) :
  forall queue records,
    lqp_queue_size queue = n ->
    if forallb (fun node => negb (unreadable node)) (flat_map lqp_nodes queue) then
      exists new,
        lqp_loop build query_frequency queue records = Returns (records ++ new)
        /\ new ≡ₚ omap (node_record query_frequency) (flat_map lqp_nodes queue)
    else exists e, lqp_loop build query_frequency queue records = Throws e.
Proof.
  induction n as [n IH] using lt_wf_ind. intros queue records Hn.
  destruct queue as [|node queue].
  { simpl. exists []. rewrite lqp_loop_equation_1, app_nil_r. now split. }
  rewrite lqp_loop_equation_2.
  cbn [flat_map]. rewrite (lqp_nodes_inputs node). cbn [app forallb].
  destruct (unreadable node) eqn:Enode; cbn [negb andb].
  { destruct (inspect_unreadable build node query_frequency records Enode) as [e He].
    rewrite He. eauto. }
  rewrite (inspect_readable build node query_frequency records Enode).
  specialize (IH (lqp_queue_size (queue ++ lqp_inputs node))).
  assert (Hlt : (lqp_queue_size (queue ++ lqp_inputs node) < n)%nat).
  { subst n. rewrite lqp_queue_size_app. unfold lqp_queue_size at 3. simpl.
    rewrite lqp_inputs_size. fold (lqp_queue_size queue). lia. }
  specialize (IH Hlt (queue ++ lqp_inputs node)
                (records ++ option_list (node_record query_frequency node)) eq_refl).
  rewrite flat_map_app, !forallb_app in *. rewrite andb_comm in IH.
  destruct (forallb _ (flat_map lqp_nodes (lqp_inputs node)) && forallb _ (flat_map lqp_nodes queue)).
  - destruct IH as (new & Hloop & Hperm).
    exists (option_list (node_record query_frequency node) ++ new).
    split; [now rewrite Hloop, app_assoc|].
    rewrite Hperm.
    rewrite omap_cons_option_list, !omap_app.
    apply Permutation_app_head, Permutation_app_comm.
  - exact IH.
Qed.

(** X7.  When every predicate on a stored table in the plan has its
    column id and a literal on its right side, [_inspect_lqp_operator]
    returns: it keeps the records it was given and adds exactly one
    record, with the query's frequency, for each such predicate node of the
    plan, at whatever depth.  On every other plan it does not return
    records, in either build: it ends with an exception, or with the
    undefined behaviour of reading a column id that was not found. *)
Theorem lqp_walker_records build op query_frequency records :
  if readable_plan op then
    exists new,
      _inspect_lqp_operator build op query_frequency records = Returns (records ++ new)
      /\ new ≡ₚ omap (node_record query_frequency) (lqp_nodes op)
  else exists e, _inspect_lqp_operator build op query_frequency records = Throws e.
Proof.
  pose proof (lqp_loop_records build query_frequency _ [op] records eq_refl) as H.
  cbn [flat_map] in H. rewrite app_nil_r in H. exact H.
Qed.

(** ** The walker over physical plans *)

Lemma topmost_scans_inputs (op : AbstractOperator) :
  is_table_scan op = false ->
  topmost_scans op = flat_map topmost_scans (operator_inputs op).
Proof.
  destruct op as [[] [l|] [r|]]; simpl; intros H; try discriminate;
    rewrite ?app_nil_r; reflexivity.
Qed.

Lemma operator_inputs_size (op : AbstractOperator) :
  operator_size op = S (operator_queue_size (operator_inputs op)).
Proof.
  destruct op as [p [l|] [r|]]; unfold operator_queue_size; simpl; lia.
Qed.

Lemma inspect_table_scan_cases build input column_id cond parameter right_input
    query_frequency records :
  let scan := Operator (TableScan column_id cond parameter) input right_input in
  if unreadable_scan build scan then
    exists e,
      inspect_table_scan build input column_id cond parameter query_frequency records
      = Throws e
  else
    inspect_table_scan build input column_id cond parameter query_frequency records
    = Returns (records ++ option_list (scan_record query_frequency scan)).
Proof.
  unfold inspect_table_scan. simpl.
  destruct input as [[[table| | |] l r]|], build, parameter; simpl;
    rewrite ?app_nil_r; eauto.
Qed.

Lemma pqp_loop_records build query_frequency (n : nat) :
  forall queue records,
    operator_queue_size queue = n ->
    if forallb (fun scan => negb (unreadable_scan build scan))
         (flat_map topmost_scans queue) then
      exists new,
        pqp_loop build query_frequency queue records = Returns (records ++ new)
        /\ new ≡ₚ omap (scan_record query_frequency) (flat_map topmost_scans queue)
    else exists e, pqp_loop build query_frequency queue records = Throws e.
Proof.
  induction n as [n IH] using lt_wf_ind. intros queue records Hn.
  destruct queue as [|node queue].
  { simpl. exists []. simp pqp_loop. rewrite app_nil_r. now split. }
  destruct (is_table_scan node) eqn:Escan.
  - destruct node as [[| |column_id cond parameter|] l r]; try discriminate.
    simp pqp_loop.
    pose proof (inspect_table_scan_cases build l column_id cond parameter r
                  query_frequency records) as Hscan.
    cbv zeta in Hscan.
    set (scan := Operator (TableScan column_id cond parameter) l r) in *.
    change (flat_map topmost_scans (scan :: queue))
      with (scan :: flat_map topmost_scans queue).
    cbn [forallb].
    destruct (unreadable_scan build scan); cbn [negb andb].
    { destruct Hscan as [e He]. rewrite He. eauto. }
    rewrite Hscan. cbn match.
    assert (Hlt : (operator_queue_size queue < n)%nat).
    { subst n. unfold operator_queue_size. simpl. lia. }
    specialize (IH _ Hlt queue
                  (records ++ option_list (scan_record query_frequency scan)) eq_refl).
    destruct (forallb _ (flat_map topmost_scans queue)); [|exact IH].
    destruct IH as (new & Hloop & Hperm).
    exists (option_list (scan_record query_frequency scan) ++ new).
    split; [now rewrite Hloop, app_assoc|].
    rewrite omap_cons_option_list. now apply Permutation_app_head.
  - assert (Hstep : pqp_loop build query_frequency (node :: queue) records
                    = pqp_loop build query_frequency (queue ++ operator_inputs node) records).
    { destruct node as [[] l r]; try discriminate; now simp pqp_loop. }
    rewrite Hstep. cbn [flat_map]. rewrite (topmost_scans_inputs node Escan).
    assert (Hlt : (operator_queue_size (queue ++ operator_inputs node) < n)%nat).
    { subst n. rewrite operator_queue_size_app. unfold operator_queue_size at 3. simpl.
      rewrite operator_inputs_size. fold (operator_queue_size queue). lia. }
    specialize (IH _ Hlt (queue ++ operator_inputs node) records eq_refl).
    rewrite flat_map_app, !forallb_app in *. rewrite andb_comm in IH.
    destruct (forallb _ (flat_map topmost_scans (operator_inputs node))
              && forallb _ (flat_map topmost_scans queue)); [|exact IH].
    destruct IH as (new & Hloop & Hperm).
    exists new. split; [exact Hloop|].
    rewrite Hperm, !omap_app. apply Permutation_app_comm.
Qed.

(** X8.  [_inspect_pqp_operator] looks at the scans of the plan that are
    not below another scan, and at nothing below a scan.  When none of
    them makes it fail it keeps the records it was given and adds one
    record for each of them that reads a [GetTable] directly; a scan over
    a [Validate] in a debug build, or a scan over a [GetTable] whose right
    side is not a literal, ends the walk with an exception. *)
Theorem pqp_walker_records build op query_frequency records :
  if readable_operators build op then
    exists new,
      _inspect_pqp_operator build op query_frequency records = Returns (records ++ new)
      /\ new ≡ₚ omap (scan_record query_frequency) (topmost_scans op)
  else exists e, _inspect_pqp_operator build op query_frequency records = Throws e.
Proof.
  pose proof (pqp_loop_records build query_frequency _ [op] records eq_refl) as H.
  cbn [flat_map] in H. rewrite app_nil_r in H. exact H.
Qed.

(** ** The cache *)

Lemma inspect_cache_entries_records build (entries : list GDFSCacheEntry) :
  forall records,
    if forallb (fun entry => readable_plan (cached_value entry)) entries then
      exists new,
        inspect_cache_entries build entries records = Returns (records ++ new)
        /\ new ≡ₚ flat_map (fun entry =>
                     omap (node_record (frequency entry)) (lqp_nodes (cached_value entry)))
                   entries
    else exists e, inspect_cache_entries build entries records = Throws e.
Proof.
  induction entries as [|entry entries IH]; intros records.
  { simpl. exists []. rewrite app_nil_r. now split. }
  cbn [forallb inspect_cache_entries flat_map].
  pose proof (lqp_loop_records build (frequency entry) _ [cached_value entry] records eq_refl)
    as Hplan.
  cbn [flat_map] in Hplan. rewrite app_nil_r in Hplan.
  fold (readable_plan (cached_value entry)) in Hplan.
  fold (_inspect_lqp_operator build (cached_value entry) (frequency entry) records) in Hplan.
  destruct (readable_plan (cached_value entry)); cbn [andb].
  - destruct Hplan as (new1 & Hwalk & Hperm1). rewrite Hwalk. cbn [bind].
    specialize (IH (records ++ new1)).
    destruct (forallb _ entries).
    + destruct IH as (new2 & Hrest & Hperm2). exists (new1 ++ new2).
      split; [now rewrite Hrest, app_assoc|]. now rewrite Hperm1, Hperm2.
    + exact IH.
  - destruct Hplan as [e He]. rewrite He. simpl. eauto.
Qed.

(** X9.  [_inspect_query_cache] on a GDFS cache gathers the records of
    all the cached plans, each plan's records with the frequency of its
    entry, when every plan can be read; one cached plan that cannot be
    read makes the inspection fail, and [evaluate] with it in the same
    way, so that no choice is evaluated at all. *)
Theorem query_cache_records build storage predict_memory_consumption queue :
  if forallb (fun entry => readable_plan (cached_value entry)) queue then
    exists records,
      snd (_inspect_query_cache build (GDFSCache queue)) = Returns records
      /\ records ≡ₚ flat_map (fun entry =>
                       omap (node_record (frequency entry)) (lqp_nodes (cached_value entry)))
                     queue
  else
    exists e,
      snd (_inspect_query_cache build (GDFSCache queue)) = Throws e
      /\ snd (evaluate build storage predict_memory_consumption (GDFSCache queue))
         = Throws e.
Proof.
  pose proof (inspect_cache_entries_records build queue []) as H.
  unfold evaluate. cbn [_inspect_query_cache snd].
  destruct (forallb _ queue).
  - destruct H as (new & Hnew & Hperm). exists new. now split.
  - destruct H as [e He]. exists e. rewrite He. now split.
Qed.

(** ** The older walker *)

Lemma operator_loop_stuck fuel op query_frequency :
  (exists input, input ∈ operator_inputs op /\ is_table_scan input = false) ->
  forall queue records result,
    (exists node, node ∈ queue /\ is_table_scan node = false) ->
    OperatorEvaluator.operator_loop fuel op query_frequency queue records
    <> Some (Returns result).
Proof.
  intros (input & Hin & Hinput).
  induction fuel as [|fuel IH]; intros queue records result (node & Hnode & Hscan).
  - destruct queue; [inversion Hnode|discriminate].
  - destruct queue as [|head queue]; [inversion Hnode|].
    cbn [OperatorEvaluator.operator_loop].
    destruct (is_table_scan head) eqn:Ehead.
    + assert (Hrest : exists node, node ∈ queue /\ is_table_scan node = false).
      { apply elem_of_cons in Hnode as [->|Hnode]; [congruence|eauto]. }
      destruct head as [[| |column_id cond parameter|] l r]; try discriminate.
      destruct l as [[[] vl vr]|]; try (now apply IH).
      destruct (as_get_table vl); [|now apply IH].
      destruct (boost_get parameter); [now apply IH|discriminate].
    + assert (Hnext : exists node,
                node ∈ queue ++ operator_inputs op /\ is_table_scan node = false).
      { exists input. split; [|exact Hinput]. apply elem_of_app. now right. }
      destruct head as [[] l r]; try discriminate; now apply IH.
Qed.

(** X10.  The older [_inspect_operator] does not return when the operator
    it is called with is not a scan and has an input that is not a scan:
    for every such node it takes from the queue it puts the inputs of the
    root back, so the queue never runs empty.  Whatever the number of
    iterations allowed, the call has then not returned records. *)
Theorem older_walker_never_returns fuel op input query_frequency records result :
  is_table_scan op = false ->
  input ∈ operator_inputs op ->
  is_table_scan input = false ->
  OperatorEvaluator._inspect_operator fuel op query_frequency records
  <> Some (Returns result).
Proof.
  intros Hop Hin Hinput. unfold OperatorEvaluator._inspect_operator.
  apply operator_loop_stuck; [eauto|].
  exists op. split; [left|exact Hop].
Qed.

Lemma older_walker_never_returns_witness :
  OperatorEvaluator._inspect_operator 100 (Operator OtherOperator (Some plain_scan) None) 1 []
  <> Some (Returns []).
Proof.
  apply (older_walker_never_returns 100 (Operator OtherOperator (Some plain_scan) None)
           plain_scan 1 [] []).
  - reflexivity.
  - left.
  - reflexivity.
Defined.

End WalkerExtras.

(** * Further properties of the evaluator *)

Module EvaluatorExtras.
Import IndexTuning Workload WorkloadScenarios ChoiceShape ChoiceScenarios.
Local Open Scope N_scope.

Lemma aggregate_fold storage records (s : gset ColumnRef) (m : gmap ColumnRef Q) :
  fst (fold_left (aggregate_step storage) records (s, m))
  = list_to_set (map column_ref records) ∪ s
  /\ dom (snd (fold_left (aggregate_step storage) records (s, m)))
     = list_to_set (map column_ref records) ∪ dom m.
Proof.
  revert s m. induction records as [|r records IH]; intros s m.
  - simpl. now rewrite !(left_id_L ∅ (∪)).
  - cbn [fold_left]. unfold aggregate_step at 2 4. cbn [fst snd].
    destruct (IH ({[column_ref r]} ∪ s) (_process_access_record storage r m)) as [IH1 IH2].
    rewrite IH1, IH2.
    assert (Hdom : dom (_process_access_record storage r m) = {[column_ref r]} ∪ dom m).
    { unfold _process_access_record. destruct (m !! column_ref r); apply dom_insert_L. }
    rewrite Hdom. cbn [map]. rewrite list_to_set_cons.
    rewrite !(assoc_L (∪)), !(comm_L (∪) (list_to_set _) {[column_ref r]}).
    now split.
Qed.

(** X11.  After [_aggregate_access_records], started from an evaluator
    that [_setup] has cleared, the candidates for a new index are exactly
    the columns of the access records, and exactly these columns have an
    entry in [_saved_work]. *)
Theorem aggregated_candidates storage records :
  fst (_aggregate_access_records storage records ∅)
  = list_to_set (map column_ref records)
  /\ dom (snd (_aggregate_access_records storage records ∅))
     = fst (_aggregate_access_records storage records ∅).
Proof.
  unfold _aggregate_access_records.
  destruct (aggregate_fold storage records ∅ ∅) as [H1 H2].
  rewrite H1, H2, dom_empty_L, !(right_id_L ∅ (∪)). now split.
Qed.

(** ** The choices of a pass *)

Lemma add_table_indexes_choices storage table :
  forall (choices : list IndexChoice) (candidates : gset ColumnRef),
    add_table_indexes storage (choices, candidates) table
    = (choices ++ map (index_choice_of table) (table_indexes storage table),
       candidates
       ∖ list_to_set (map (fun c => choice_column_ref (index_choice_of table c))
                        (table_indexes storage table))).
Proof.
  unfold add_table_indexes.
  induction (table_indexes storage table) as [|index_info infos IH];
    intros choices candidates.
  - simpl. now rewrite app_nil_r, difference_empty_L.
  - cbn [fold_left fst snd map]. rewrite IH, <- app_assoc.
    now rewrite list_to_set_cons, difference_difference_l_L.
Qed.

Lemma add_existing_indexes_choices storage (choices : list IndexChoice)
    (candidates : gset ColumnRef) :
  _add_existing_indexes storage choices candidates
  = (choices
     ++ flat_map (fun table => map (index_choice_of table) (table_indexes storage table))
          (table_names storage),
     candidates ∖ list_to_set (indexed_columns storage)).
Proof.
  unfold _add_existing_indexes, indexed_columns.
  revert choices candidates.
  induction (table_names storage) as [|table tables IH]; intros choices candidates.
  - simpl. now rewrite app_nil_r, difference_empty_L.
  - cbn [fold_left flat_map]. rewrite add_table_indexes_choices, IH, <- app_assoc.
    rewrite list_to_set_app_L, difference_difference_l_L. reflexivity.
Qed.

Lemma indexed_columns_choices storage :
  map choice_column_ref
    (flat_map (fun table => map (index_choice_of table) (table_indexes storage table))
       (table_names storage))
  = indexed_columns storage.
Proof.
  unfold indexed_columns.
  induction (table_names storage) as [|table tables IH]; [reflexivity|].
  cbn [flat_map]. rewrite map_app, IH. f_equal. now rewrite map_map.
Qed.

Lemma evaluate_choices_keeps storage predict_memory_consumption
    (_saved_work : gmap ColumnRef Q) (_choices : list IndexChoice) :
  forall evaluated,
    evaluate_choices storage predict_memory_consumption _saved_work _choices
    = Returns evaluated ->
    Forall2 (fun c e => choice_column_ref e = choice_column_ref c
                        /\ exists_ e = exists_ c
                        /\ type e = if exists_ c then type c else GroupKey)
      _choices evaluated.
Proof.
  induction _choices as [|c rest IH]; intros evaluated H.
  - injection H as <-. constructor.
  - cbn [evaluate_choices] in H.
    destruct (evaluate_choice storage predict_memory_consumption _saved_work c)
      as [e|] eqn:Ec; [|discriminate].
    cbn [bind] in H.
    destruct (evaluate_choices storage predict_memory_consumption _saved_work rest)
      as [others|]; [|discriminate].
    injection H as <-. constructor; [|now apply IH].
    unfold evaluate_choice in Ec. destruct (exists_ c) eqn:Ex.
    + cbn [bind] in Ec. injection Ec as <-. simpl. now repeat split.
    + destruct (_predict_memory_cost _ _ _); [|discriminate].
      cbn [bind] in Ec. injection Ec as <-. simpl. now repeat split.
Qed.

Lemma kept_existing (_choices evaluated : list IndexChoice) :
  Forall2 (fun c e => choice_column_ref e = choice_column_ref c
                      /\ exists_ e = exists_ c
                      /\ type e = if exists_ c then type c else GroupKey)
    _choices evaluated ->
  Forall (fun c => exists_ c = true) _choices ->
  existing_choices evaluated = evaluated
  /\ proposed_choices evaluated = []
  /\ map choice_column_ref evaluated = map choice_column_ref _choices.
Proof.
  unfold existing_choices, proposed_choices.
  induction 1 as [|c e l l' (Hr & He & Ht) Hl IH]; intros Hall; [now repeat split|].
  apply Forall_cons in Hall as [Hc Hall]. destruct (IH Hall) as (IH1 & IH2 & IH3).
  cbn [List.filter map]. rewrite He, Hc. cbn [negb].
  rewrite IH1, IH2, IH3, Hr. now repeat split.
Qed.

Lemma kept_proposed (_choices evaluated : list IndexChoice) :
  Forall2 (fun c e => choice_column_ref e = choice_column_ref c
                      /\ exists_ e = exists_ c
                      /\ type e = if exists_ c then type c else GroupKey)
    _choices evaluated ->
  Forall (fun c => exists_ c = false) _choices ->
  existing_choices evaluated = []
  /\ proposed_choices evaluated = evaluated
  /\ map choice_column_ref evaluated = map choice_column_ref _choices
  /\ Forall (fun c => type c = GroupKey) evaluated.
Proof.
  unfold existing_choices, proposed_choices.
  induction 1 as [|c e l l' (Hr & He & Ht) Hl IH]; intros Hall; [now repeat split|].
  apply Forall_cons in Hall as [Hc Hall]. destruct (IH Hall) as (IH1 & IH2 & IH3 & IH4).
  cbn [List.filter map]. rewrite He, Hc. cbn [negb].
  rewrite IH1, IH2, IH3, Hr. repeat split. constructor; [|exact IH4].
  now rewrite Ht, Hc.
Qed.

(** X12.  The choices [evaluate] returns are the existing indexes, one
    choice per index in the order of the storage manager, followed by the
    proposed ones: one choice, of type group-key, for every column that
    has an access record and no index yet, and no column twice. *)
Theorem evaluated_choices build storage predict_memory_consumption cache records choices :
  snd (_inspect_query_cache build cache) = Returns records ->
  snd (evaluate build storage predict_memory_consumption cache) = Returns choices ->
  choices = existing_choices choices ++ proposed_choices choices
  /\ map choice_column_ref (existing_choices choices) = indexed_columns storage
  /\ NoDup (map choice_column_ref (proposed_choices choices))
  /\ (forall c, c ∈ map choice_column_ref (proposed_choices choices)
        <-> c ∈ map column_ref records /\ c ∉ indexed_columns storage)
  /\ Forall (fun c => type c = GroupKey) (proposed_choices choices).
Proof.
  intros Hrecords Hchoices. unfold evaluate in Hchoices. cbn [snd] in Hchoices.
  rewrite Hrecords in Hchoices. cbn [bind] in Hchoices.
  rewrite add_existing_indexes_choices in Hchoices. cbn [fst snd] in Hchoices.
  unfold _add_new_indexes in Hchoices. rewrite app_nil_l in Hchoices.
  apply evaluate_choices_keeps in Hchoices.
  apply Forall2_app_inv_l in Hchoices as (old & new & Hold & Hnew & ->).
  apply kept_existing in Hold as (Ho1 & Ho2 & Ho3);
    [|apply Forall_forall; intros c Hc; apply list_elem_of_In, in_flat_map in Hc
        as (table & _ & Hc); apply in_map_iff in Hc as (info & <- & _); reflexivity].
  apply kept_proposed in Hnew as (Hn1 & Hn2 & Hn3 & Hn4);
    [|apply Forall_forall; intros c Hc; apply list_elem_of_In, in_map_iff in Hc
        as (ref & <- & _); reflexivity].
  unfold existing_choices, proposed_choices in *.
  rewrite !List.filter_app, Ho1, Ho2, Hn1, Hn2, app_nil_r, app_nil_l.
  rewrite Ho3, Hn3, indexed_columns_choices, map_map. cbn [new_index_choice choice_column_ref].
  rewrite map_id.
  destruct (aggregate_fold storage records ∅ ∅) as [Hset _].
  unfold _aggregate_access_records. rewrite Hset, (right_id_L ∅ (∪)).
  split; [reflexivity|]. split; [reflexivity|]. split; [apply NoDup_elements|].
  split; [|exact Hn4].
  intros c. rewrite elem_of_elements, elem_of_difference, !elem_of_list_to_set.
  reflexivity.
Qed.

Lemma evaluated_choices_witness :
  sample_choices = existing_choices sample_choices ++ proposed_choices sample_choices
  /\ map choice_column_ref (existing_choices sample_choices)
     = indexed_columns (sample_storage 9 1 9)
  /\ NoDup (map choice_column_ref (proposed_choices sample_choices))
  /\ (forall c, c ∈ map choice_column_ref (proposed_choices sample_choices)
        <-> c ∈ map column_ref [make_access_record "t" 0 10 Equals (Int32 4)]
            /\ c ∉ indexed_columns (sample_storage 9 1 9))
  /\ Forall (fun c => type c = GroupKey) (proposed_choices sample_choices).
Proof.
  apply (evaluated_choices Release (sample_storage 9 1 9) offsets_and_values
           (single_query literal_predicate 10)
           [make_access_record "t" 0 10 Equals (Int32 4)] sample_choices).
  - vm_compute. reflexivity.
  - vm_compute. reflexivity.
Defined.

(** ** The order of the records *)

Lemma matching_permutation c (records records' : list AccessRecord) :
  records ≡ₚ records' -> matching c records ≡ₚ matching c records'.
Proof.
  unfold matching.
  induction 1 as [|r l l' H IH|r1 r2 l|l l' l'' H1 IH1 H2 IH2]; simpl.
  - reflexivity.
  - destruct (bool_decide (column_ref r = c)); [constructor|]; assumption.
  - destruct (bool_decide (column_ref r1 = c)), (bool_decide (column_ref r2 = c));
      try reflexivity. apply perm_swap.
  - etransitivity; eassumption.
Qed.

Lemma sum_of_permutation f (records records' : list AccessRecord) :
  records ≡ₚ records' -> (sum_of f records == sum_of f records')%Q.
Proof.
  unfold sum_of. induction 1; simpl; lra.
Qed.



End EvaluatorExtras.

(** * The aggregate node *)

Module AggregateFacts.
Import IndexTuning AggregateNode AggregateShape AggregateScenarios.
Local Open Scope N_scope.

(** ** Text *)

Lemma append_assoc (a b c : string) : (a +:+ b) +:+ c = a +:+ b +:+ c.
Proof.
  induction a as [|x a IH]; [reflexivity|].
  change (String.String x ((a +:+ b) +:+ c) = String.String x (a +:+ b +:+ c)).
  now f_equal.
Qed.

Lemma append_nil_r (a : string) : a +:+ "" = a.
Proof.
  induction a as [|x a IH]; [reflexivity|].
  change (String.String x (a +:+ "") = String.String x a). now f_equal.
Qed.

Lemma stream_aggregate_shown s e : stream_aggregate s e = s +:+ shown e.
Proof.
  unfold shown, stream_aggregate. cbv zeta.
  change ("" +:+ to_string e None) with (to_string e None).
  destruct (alias e); [|reflexivity]. now rewrite append_assoc.
Qed.

Lemma stream_aggregates s (l : list ExpressionNode) :
  fold_left (fun s it => stream_aggregate (s +:+ ", ") it) l s
  = s +:+ String.concat "" (map (fun it => ", " +:+ shown it) l).
Proof.
  revert s. induction l as [|e l IH]; intros s; simpl.
  - now rewrite append_nil_r.
  - rewrite IH, stream_aggregate_shown.
    destruct (map (fun it => ", " +:+ shown it) l) eqn:E.
    + simpl. now rewrite append_nil_r, !append_assoc.
    + simpl. now rewrite !append_assoc.
Qed.

Lemma concat_separated (x : string) (l : list string) :
  String.concat ", " (x :: l) = x +:+ String.concat "" (map (fun y => ", " +:+ y) l).
Proof.
  revert x. induction l as [|y l IH]; intros x.
  - simpl. now rewrite append_nil_r.
  - change (String.concat ", " (x :: y :: l)) with (x +:+ ", " +:+ String.concat ", " (y :: l)).
    rewrite IH. simpl. destruct (map (fun y => ", " +:+ y) l) eqn:E; simpl.
    + now rewrite !append_nil_r.
    + now rewrite !append_assoc.
Qed.

Lemma stream_columns s (l : list ColumnID) :
  fold_left (fun s column_name => s +:+ pretty column_name +:+ ", ") l s
  = s +:+ String.concat "" (map (fun c => pretty c +:+ ", ") l).
Proof.
  revert s. induction l as [|c l IH]; intros s; simpl.
  - now rewrite append_nil_r.
  - rewrite IH. destruct (map (fun c => pretty c +:+ ", ") l) eqn:E; simpl.
    + now rewrite !append_nil_r.
    + now rewrite !append_assoc.
Qed.

(** ** The output columns *)

Lemma wrap16_succ (j : nat) : wrap16 (wrap16 (N.of_nat j) + 1) = wrap16 (N.of_nat (S j)).
Proof.
  unfold wrap16. rewrite N.Div0.add_mod_idemp_l. f_equal. lia.
Qed.

Lemma groupby_columns_spec (child : ChildNode) (l : list ColumnID) :
  forall (j : nat) names ids,
    groupby_columns (Some child) l (wrap16 (N.of_nat j)) names ids
    = if forallb (in_range child) l then
        Returns (names ++ map (fun g => nth (N.to_nat g) (output_column_names child) ""%string) l,
                 ids ++ map (fun i => wrap16 (N.of_nat i)) (seq j (length l)))
      else Throws undefined_behaviour.
Proof.
  induction l as [|g l IH]; intros j names ids.
  - simpl. now rewrite !app_nil_r.
  - cbn [groupby_columns forallb]. unfold in_range at 1.
    destruct (Nat.ltb_spec (N.to_nat g) (length (output_column_names child))) as [Hlt|Hge].
    + destruct (lookup_lt_is_Some_2 _ _ Hlt) as [name Hname]. rewrite Hname.
      rewrite wrap16_succ, IH. cbn [andb].
      destruct (forallb (in_range child) l); [|reflexivity].
      cbn [map seq length]. rewrite <- !app_assoc. cbn [app].
      now rewrite (nth_lookup_Some _ _ ""%string _ Hname).
    + rewrite lookup_ge_None_2 by lia. reflexivity.
Qed.

Lemma aggregate_columns_spec build (child : option ChildNode) (l : list ExpressionNode) :
  forall names ids,
    aggregate_columns build child l names ids
    = if asserts build && negb (forallb is_function l) then
        Throws (logic_error "Expression must be a function.")
      else
        Returns (names ++ map (aggregate_column_name child) l,
                 ids ++ replicate (length l) INVALID_COLUMN_ID).
Proof.
  induction l as [|e l IH]; intros names ids.
  - simpl. rewrite andb_false_r. now rewrite !app_nil_r.
  - cbn [aggregate_columns forallb]. fold (is_function e).
    destruct build; cbn [DebugAssert Assert asserts andb].
    + destruct (is_function e); cbn [bind andb negb]; [|reflexivity].
      rewrite IH. cbn [asserts andb].
      destruct (forallb is_function l); cbn [negb]; [|reflexivity].
      cbn [map length replicate]. now rewrite <- !app_assoc.
    + cbn [bind]. rewrite IH. cbn [asserts andb map length replicate].
      now rewrite <- !app_assoc.
Qed.

Lemma on_child_changed_with_child build node child :
  left_child node = Some child ->
  _on_child_changed build node
  = if forallb (in_range child) (_groupby_column_ids node) then
      if asserts build && negb (forallb is_function (_aggregate_expressions node)) then
        Throws (logic_error "Expression must be a function.")
      else Returns (output_columns child node)
    else Throws undefined_behaviour.
Proof.
  intros Hchild. unfold _on_child_changed. rewrite Hchild.
  assert (Hassert : DebugAssert build (bool_decide (is_Some (Some child)))
                      "AggregateNode needs a child." = Returns tt)
    by (destruct build; reflexivity).
  rewrite Hassert. cbn [bind].
  change 0 with (wrap16 (N.of_nat 0)). rewrite groupby_columns_spec.
  destruct (forallb (in_range child) (_groupby_column_ids node)); [|reflexivity].
  cbn [bind fst snd]. rewrite aggregate_columns_spec. reflexivity.
Qed.

(** ** The search by name *)

Lemma search_aliases_taken name size (l : list ExpressionNode) :
  forall i c,
    (exists e, e ∈ l /\ has_alias name e = true) ->
    search_aliases name size l i (Some c) = Throws (logic_error (ambiguous name)).
Proof.
  induction l as [|e l IH]; intros i c (e' & He' & Halias); [inversion He'|].
  cbn [search_aliases]. destruct (has_alias name e) eqn:E; [reflexivity|].
  apply IH. exists e'. split; [|exact Halias].
  apply elem_of_cons in He' as [->|He']; [congruence|exact He'].
Qed.

Lemma search_aliases_none name size (l : list ExpressionNode) :
  forall i acc,
    Forall (fun e => has_alias name e = false) l ->
    search_aliases name size l i acc = Returns acc.
Proof.
  induction l as [|e l IH]; intros i acc Hall; [reflexivity|].
  apply Forall_cons in Hall as [He Hall].
  cbn [search_aliases]. rewrite He. now apply IH.
Qed.

(** What the search returns: the position of the one alias that matches,
    behind the group-by columns. *)
Lemma search_aliases_found name size (l : list ExpressionNode) :
  forall i c,
    search_aliases name size l i None = Returns (Some c) ->
    exists j e,
      l !! j = Some e /\ has_alias name e = true
      /\ c = wrap16 (i + N.of_nat j + size).
Proof.
  induction l as [|e l IH]; intros i c H; [discriminate|].
  cbn [search_aliases] in H. destruct (has_alias name e) eqn:E.
  - cbn [Assert bool_decide negb bind] in H.
    assert (Hrest : Forall (fun e => has_alias name e = false) l).
    { apply Forall_forall. intros e' He'. destruct (has_alias name e') eqn:E'; [|reflexivity].
      rewrite search_aliases_taken in H by eauto. discriminate. }
    rewrite search_aliases_none in H by exact Hrest. injection H as <-.
    exists 0%nat, e. repeat split; [exact E|]. f_equal. lia.
  - apply IH in H as (j & e' & Hj & He' & ->).
    exists (S j), e'. repeat split; [exact Hj|exact He'|]. f_equal. lia.
Qed.

Lemma search_aliases_twice name size (l : list ExpressionNode) :
  forall i acc j1 j2 e1 e2,
    (j1 < j2)%nat -> l !! j1 = Some e1 -> l !! j2 = Some e2 ->
    has_alias name e1 = true -> has_alias name e2 = true ->
    search_aliases name size l i acc = Throws (logic_error (ambiguous name)).
Proof.
  induction l as [|e l IH]; intros i acc j1 j2 e1 e2 Hlt H1 H2 A1 A2; [discriminate|].
  cbn [search_aliases]. destruct j2 as [|j2]; [lia|]. simpl in H2.
  destruct j1 as [|j1].
  - injection H1 as ->. rewrite A1.
    destruct acc; [reflexivity|]. cbn [Assert bool_decide negb bind].
    apply search_aliases_taken. exists e2. split; [|exact A2].
    now apply list_elem_of_lookup_2 in H2.
  - simpl in H1. destruct (has_alias name e).
    + destruct acc; [reflexivity|]. cbn [Assert bool_decide negb bind].
      apply search_aliases_taken. exists e2. split; [|exact A2].
      now apply list_elem_of_lookup_2 in H2.
    + apply (IH _ _ j1 j2 e1 e2); try assumption. lia.
Qed.

Lemma search_aliases_kept name size (l : list ExpressionNode) :
  forall i c,
    search_aliases name size l i (Some c) = Throws (logic_error (ambiguous name))
    \/ search_aliases name size l i (Some c) = Returns (Some c).
Proof.
  induction l as [|e l IH]; intros i c; [now right|].
  cbn [search_aliases]. destruct (has_alias name e); [now left|apply IH].
Qed.

Lemma search_aliases_match name size (l : list ExpressionNode) :
  forall i,
    (exists e, e ∈ l /\ has_alias name e = true) ->
    search_aliases name size l i None = Throws (logic_error (ambiguous name))
    \/ exists c, search_aliases name size l i None = Returns (Some c).
Proof.
  induction l as [|e l IH]; intros i (e' & He' & Halias); [inversion He'|].
  cbn [search_aliases]. destruct (has_alias name e) eqn:E.
  - simpl.
    pose proof (search_aliases_kept name size l (i + 1) (wrap16 (i + size))) as H.
    unfold ColumnID in *. destruct H as [H|H]; rewrite H; eauto.
  - apply IH. exists e'. split; [|exact Halias].
    apply elem_of_cons in He' as [->|He']; [congruence|exact He'].
Qed.

Lemma position_of_Some (x : ColumnID) (l : list ColumnID) p :
  position_of x l = Some p -> l !! p = Some x /\ (p < length l)%nat.
Proof.
  unfold position_of. destruct (list_find (fun y => y = x) l) as [[q y]|] eqn:E;
    [|discriminate].
  simpl. intros [= <-]. apply list_find_Some in E as (Hq & -> & _).
  split; [exact Hq|]. apply lookup_lt_is_Some. eauto.
Qed.

Lemma position_of_elem (x : ColumnID) (l : list ColumnID) :
  x ∈ l -> is_Some (position_of x l).
Proof.
  intros Hx. unfold position_of.
  destruct (list_find_elem_of (fun y => y = x) l x Hx eq_refl) as [[q y] E].
  rewrite E. simpl. eauto.
Qed.

Lemma wrap16_small (n : N) : n < 65536 -> wrap16 n = n.
Proof. intros H. unfold wrap16. now apply N.mod_small. Qed.

End AggregateFacts.

Module AggregateExtras.
Import IndexTuning AggregateNode AggregateShape AggregateScenarios AggregateFacts.
Local Open Scope N_scope.

(** X14.  [description] shows the first aggregate expression twice: the
    text is the aggregate expressions, the first one repeated, separated
    by commas, followed by the group-by clause, in which every column id
    is followed by a comma. *)
Theorem description_shows_first_twice node :
  description node
  = String.concat ", "
      (map shown
         match _aggregate_expressions node with
         | it :: _ => it :: _aggregate_expressions node
         | [] => []
         end)
    +:+ group_by_clause (_groupby_column_ids node).
Proof.
  unfold description. cbv zeta. rewrite stream_aggregates.
  assert (Hlist :
    match _aggregate_expressions node with
    | it :: _ => stream_aggregate "" it
    | [] => ""
    end +:+ String.concat "" (map (fun it => ", " +:+ shown it) (_aggregate_expressions node))
    = String.concat ", "
        (map shown
           match _aggregate_expressions node with
           | it :: _ => it :: _aggregate_expressions node
           | [] => []
           end)).
  { destruct (_aggregate_expressions node) as [|it rest]; [reflexivity|].
    change (map shown (it :: it :: rest)) with (shown it :: map shown (it :: rest)).
    now rewrite concat_separated, map_map. }
  rewrite Hlist. unfold group_by_clause.
  destruct (_groupby_column_ids node) as [|c l]; [now rewrite append_nil_r|].
  now rewrite stream_columns, !append_assoc.
Qed.

(** X15.  [_on_child_changed] on a node with a child.  When every
    group-by column id is a position among the child's column names, the
    output names are those of the group-by columns followed by one name
    per aggregate expression (its alias or else its text), and the output
    ids number the group-by columns from 0 and give the aggregates
    [INVALID_COLUMN_ID]; a debug build fails instead when an aggregate
    expression is not a function.  A group-by column id past the child's
    names has no defined behaviour. *)
Theorem on_child_changed_columns build aggregate_expressions groupby_column_ids child :
  let node := {| _aggregate_expressions := aggregate_expressions;
                 _groupby_column_ids := groupby_column_ids;
                 left_child := Some child |} in
  _on_child_changed build node
  = if forallb (in_range child) groupby_column_ids then
      if asserts build && negb (forallb is_function aggregate_expressions) then
        Throws (logic_error "Expression must be a function.")
      else Returns (output_columns child node)
    else Throws undefined_behaviour.
Proof. intros node. now apply on_child_changed_with_child. Qed.

(** X16.  On a node of fewer than [2 ^ 16] columns, the column id that
    [find_column_id_for_column_identifier_name] returns is a position in
    the output columns [_on_child_changed] has set: either the name has no
    table and the output column behind the group-by columns at that
    position carries it as its alias, or the position is that of the
    group-by column the child resolved the name to, and the output column
    has the name the child gives that column. *)
Theorem found_name_is_output_column build node child column_identifier_name names ids c :
  left_child node = Some child ->
  column_count node < 65536 ->
  _on_child_changed build node = Returns (names, ids) ->
  find_column_id_for_column_identifier_name build node column_identifier_name
  = Some (Returns (Some c)) ->
  (N.to_nat c < length names)%nat
  /\ ((table_name column_identifier_name = None
       /\ (length (_groupby_column_ids node) <= N.to_nat c)%nat
       /\ names !! N.to_nat c = Some (column_name column_identifier_name))
      \/ (exists column_id_child,
            child_column_id_for_column_identifier_name child column_identifier_name
            = Returns (Some column_id_child)
            /\ _groupby_column_ids node !! N.to_nat c = Some column_id_child
            /\ names !! N.to_nat c
               = output_column_names child !! N.to_nat column_id_child)).
Proof.
  intros Hchild Hsize Hout Hfind. unfold column_count in Hsize.
  rewrite (on_child_changed_with_child build node child Hchild) in Hout.
  destruct (forallb (in_range child) (_groupby_column_ids node)) eqn:Hrange;
    [|discriminate].
  destruct (asserts build && negb (forallb is_function (_aggregate_expressions node)));
    [discriminate|].
  injection Hout as <- <-.
  assert (Hlen : length (map (fun g => nth (N.to_nat g) (output_column_names child) ""%string)
                           (_groupby_column_ids node))
                 = length (_groupby_column_ids node)) by apply length_map.
  unfold find_column_id_for_column_identifier_name in Hfind. rewrite Hchild in Hfind.
  assert (Hassert : DebugAssert build (bool_decide (is_Some (Some child)))
                      "AggregateNode needs a child." = Returns tt)
    by (destruct build; reflexivity).
  rewrite Hassert in Hfind.
  destruct (column_id_aggregate node column_identifier_name) as [[found|]|] eqn:Hagg;
    try discriminate.
  injection Hfind as Hfind.
  destruct (child_column_id_for_column_identifier_name child column_identifier_name)
    as [column_id_child|] eqn:Hasked; [|discriminate].
  cbn [bind] in Hfind.
  destruct found as [column|].
  - (* an alias *)
    destruct (column_id_groupby node column_id_child); [discriminate|].
    cbn [Assert bool_decide negb orb bind] in Hfind. injection Hfind as ->.
    unfold column_id_aggregate in Hagg.
    destruct (table_name column_identifier_name) eqn:Htable; [discriminate|].
    destruct (N.ltb_spec (N.of_nat (length (_aggregate_expressions node))) (2 ^ 16));
      [|destruct (existsb _ _); discriminate].
    injection Hagg as Hagg.
    apply search_aliases_found in Hagg as (j & e & Hj & He & ->).
    assert (Hjlt : (j < length (_aggregate_expressions node))%nat)
      by (apply lookup_lt_is_Some; eauto).
    rewrite wrap16_small by lia.
    replace (N.to_nat (0 + N.of_nat j + N.of_nat (length (_groupby_column_ids node))))
      with (length (_groupby_column_ids node) + j)%nat by lia.
    split; [rewrite length_app, !length_map; unfold ColumnID in *; lia|].
    left. split; [reflexivity|]. split; [lia|].
    rewrite lookup_app_r by (unfold ColumnID in *; lia). rewrite Hlen.
    replace (length (_groupby_column_ids node) + j - length (_groupby_column_ids node))%nat
      with j by lia.
    rewrite list_lookup_fmap, Hj. simpl. unfold aggregate_column_name.
    unfold has_alias in He. apply bool_decide_eq_true in He. now rewrite He.
  - (* a group-by column *)
    destruct (column_id_groupby node column_id_child) as [column|] eqn:Hgroup;
      cbn [Assert bool_decide negb orb bind] in Hfind; [|discriminate].
    injection Hfind as ->.
    unfold column_id_groupby in Hgroup.
    destruct column_id_child as [column_id_child|]; [|discriminate].
    destruct (position_of column_id_child (_groupby_column_ids node)) as [p|] eqn:Hp;
      [|discriminate].
    injection Hgroup as <-.
    apply position_of_Some in Hp as [Hp Hplt].
    rewrite wrap16_small by lia. rewrite !Nat2N.id.
    split; [rewrite length_app, !length_map; unfold ColumnID in *; lia|].
    right. exists column_id_child. split; [reflexivity|]. split; [exact Hp|].
    rewrite lookup_app_l by (unfold ColumnID in *; lia).
    unfold ColumnID in *. rewrite list_lookup_fmap, Hp. simpl.
    rewrite forallb_forall in Hrange.
    assert (Hin : in_range child column_id_child = true)
      by (apply Hrange, list_elem_of_In; now apply list_elem_of_lookup_2 in Hp).
    unfold in_range in Hin. apply Nat.ltb_lt in Hin.
    destruct (lookup_lt_is_Some_2 _ _ Hin) as [name Hname].
    now rewrite Hname, (nth_lookup_Some _ _ ""%string _ Hname).
Qed.

Lemma found_name_is_output_column_witness :
  (N.to_nat 1 < length ["b"; "total"]%string)%nat
  /\ ((table_name (unqualified "total") = None
       /\ (length (_groupby_column_ids total_by_b) <= N.to_nat 1)%nat
       /\ ["b"; "total"]%string !! N.to_nat 1 = Some (column_name (unqualified "total")))
      \/ (exists column_id_child,
            child_column_id_for_column_identifier_name stored_columns (unqualified "total")
            = Returns (Some column_id_child)
            /\ _groupby_column_ids total_by_b !! N.to_nat 1 = Some column_id_child
            /\ ["b"; "total"]%string !! N.to_nat 1
               = output_column_names stored_columns !! N.to_nat column_id_child)).
Proof.
  apply (found_name_is_output_column Debug total_by_b stored_columns
           (unqualified "total") ["b"; "total"]%string [0; 65535] 1).
  - reflexivity.
  - vm_compute. reflexivity.
  - vm_compute. reflexivity.
  - vm_compute. reflexivity.
Defined.

(** X17.  [find_column_id_for_column_identifier_name] does not choose
    among several columns: a name without a table that is the alias of two
    aggregate expressions, or the alias of one and also a group-by column
    of the child, fails the assertion, in either build. *)
Theorem ambiguous_name_rejected build node child column_identifier_name :
  left_child node = Some child ->
  table_name column_identifier_name = None ->
  N.of_nat (length (_aggregate_expressions node)) < 65536 ->
  (exists j1 j2 e1 e2,
      (j1 < j2)%nat
      /\ _aggregate_expressions node !! j1 = Some e1
      /\ _aggregate_expressions node !! j2 = Some e2
      /\ alias e1 = Some (column_name column_identifier_name)
      /\ alias e2 = Some (column_name column_identifier_name))
  \/ (exists e column_id_child,
        e ∈ _aggregate_expressions node
        /\ alias e = Some (column_name column_identifier_name)
        /\ child_column_id_for_column_identifier_name child column_identifier_name
           = Returns (Some column_id_child)
        /\ column_id_child ∈ _groupby_column_ids node) ->
  find_column_id_for_column_identifier_name build node column_identifier_name
  = Some (Throws (logic_error (ambiguous (column_name column_identifier_name)))).
Proof.
  intros Hchild Htable Hsize Hambiguous.
  unfold find_column_id_for_column_identifier_name. rewrite Hchild.
  assert (Hassert : DebugAssert build (bool_decide (is_Some (Some child)))
                      "AggregateNode needs a child." = Returns tt)
    by (destruct build; reflexivity).
  rewrite Hassert. unfold column_id_aggregate. rewrite Htable.
  destruct (N.ltb_spec (N.of_nat (length (_aggregate_expressions node))) (2 ^ 16)) as [_|Hge];
    [|change (2 ^ 16) with 65536 in Hge; lia].
  destruct Hambiguous as [(j1 & j2 & e1 & e2 & Hlt & H1 & H2 & A1 & A2)
                         |(e & column_id_child & He & Ha & Hasked & Hgrouped)].
  - rewrite (search_aliases_twice _ _ _ _ _ j1 j2 e1 e2 Hlt H1 H2); [reflexivity| |];
      unfold has_alias; now apply bool_decide_eq_true.
  - destruct (search_aliases_match (column_name column_identifier_name)
                (N.of_nat (length (_groupby_column_ids node)))
                (_aggregate_expressions node) 0) as [Hthrown|[c Hfound]].
    { exists e. split; [exact He|]. unfold has_alias. now apply bool_decide_eq_true. }
    + now rewrite Hthrown.
    + rewrite Hfound, Hasked. cbn [bind]. unfold column_id_groupby.
      destruct (position_of_elem _ _ Hgrouped) as [p Hp]. rewrite Hp.
      reflexivity.
Qed.

Lemma ambiguous_name_rejected_witness :
  find_column_id_for_column_identifier_name Release total_twice (unqualified "total")
  = Some (Throws (logic_error (ambiguous "total"))).
Proof.
  apply (ambiguous_name_rejected Release total_twice stored_columns (unqualified "total")).
  - reflexivity.
  - reflexivity.
  - vm_compute. reflexivity.
  - left. exists 0%nat, 1%nat, (sum_of_c (Some "total"%string)),
      (sum_of_c (Some "total"%string)).
    repeat split; lia.
Defined.

(** X18.  On a node of fewer than [2 ^ 16] columns, the column id that
    [find_column_id_for_expression] returns is the output position of an
    aggregate expression equal to the expression, which is then no
    group-by column, or that of the group-by column the expression
    identifies, which then equals no aggregate expression;
    [get_column_id_for_expression] returns the same id in either build. *)
Theorem found_expression_is_output_column build equal node expression c :
  column_count node < 65536 ->
  find_column_id_for_expression equal node expression = Returns (Some c) ->
  get_column_id_for_expression build equal node expression = Returns c
  /\ ((exists e,
         (length (_groupby_column_ids node) <= N.to_nat c)%nat
         /\ _aggregate_expressions node
              !! (N.to_nat c - length (_groupby_column_ids node))%nat = Some e
         /\ equal expression e = true
         /\ ~ (type expression = ColumnIdentifier
               /\ column_id expression ∈ _groupby_column_ids node))
      \/ (type expression = ColumnIdentifier
          /\ _groupby_column_ids node !! N.to_nat c = Some (column_id expression)
          /\ Forall (fun e => equal expression e = false) (_aggregate_expressions node))).
Proof.
  intros Hsize Hfind. unfold column_count in Hsize.
  split.
  { unfold get_column_id_for_expression. rewrite Hfind. now destruct build. }
  unfold find_column_id_for_expression in Hfind. cbv zeta in Hfind.
  destruct (list_find (fun rhs => equal expression rhs = true) (_aggregate_expressions node))
    as [[idx e]|] eqn:Eagg; cbn [fmap option_fmap option_map fst] in Hfind.
  - (* among the aggregate expressions *)
    apply list_find_Some in Eagg as (Hidx & Heq & _).
    assert (Hlt : (idx < length (_aggregate_expressions node))%nat)
      by (apply lookup_lt_is_Some; eauto).
    destruct (bool_decide (type expression = ColumnIdentifier)) eqn:Etype.
    + destruct (position_of (column_id expression) (_groupby_column_ids node))
        as [p|] eqn:Ep; [discriminate|].
      cbn in Hfind. injection Hfind as <-.
      rewrite wrap16_small by (unfold ColumnID in *; lia).
      left. exists e. unfold ColumnID in *.
      match goal with |- context [_ !! ?n] => replace n with idx by lia end.
      repeat split; [lia|exact Hidx|exact Heq|].
      intros [_ Hin]. apply position_of_elem in Hin as [p Hp]. congruence.
    + cbn in Hfind. injection Hfind as <-.
      rewrite wrap16_small by (unfold ColumnID in *; lia).
      left. exists e. unfold ColumnID in *.
      match goal with |- context [_ !! ?n] => replace n with idx by lia end.
      repeat split; [lia|exact Hidx|exact Heq|].
      intros [Htype _]. apply bool_decide_eq_false in Etype. contradiction.
  - (* among the group-by columns *)
    apply list_find_None in Eagg.
    destruct (bool_decide (type expression = ColumnIdentifier)) eqn:Etype;
      [|discriminate].
    apply bool_decide_eq_true in Etype.
    destruct (position_of (column_id expression) (_groupby_column_ids node))
      as [p|] eqn:Ep; [|discriminate].
    cbn in Hfind. injection Hfind as <-.
    apply position_of_Some in Ep as [Hp Hplt].
    rewrite wrap16_small by (unfold ColumnID in *; lia). rewrite Nat2N.id.
    right. repeat split; [exact Etype|exact Hp|].
    eapply Forall_impl; [exact Eagg|]. intros e He. simpl in He.
    now destruct (equal expression e).
Qed.

Lemma found_expression_is_output_column_witness :
  get_column_id_for_expression Debug same_expression total_by_b (column 1) = Returns 0
  /\ ((exists e,
         (length (_groupby_column_ids total_by_b) <= N.to_nat 0)%nat
         /\ _aggregate_expressions total_by_b
              !! (N.to_nat 0 - length (_groupby_column_ids total_by_b))%nat = Some e
         /\ same_expression (column 1) e = true
         /\ ~ (type (column 1) = ColumnIdentifier
               /\ column_id (column 1) ∈ _groupby_column_ids total_by_b))
      \/ (type (column 1) = ColumnIdentifier
          /\ _groupby_column_ids total_by_b !! N.to_nat 0 = Some (column_id (column 1))
          /\ Forall (fun e => same_expression (column 1) e = false)
               (_aggregate_expressions total_by_b))).
Proof.
  apply (found_expression_is_output_column Debug same_expression total_by_b (column 1) 0).
  - vm_compute. reflexivity.
  - vm_compute. reflexivity.
Defined.

End AggregateExtras.
